(** * resume.py: checkpoint capture / restore protocol

    A shallow embedding of [src/resume.py] (class [Checkpoint]) and the
    properties of its save / restore / sync / load life cycle.

    Layout of the development:
    - [Py]       : the fragment of the Python object model the module touches
                   (runtime types, [isinstance], [hasattr(v, '__dict__')],
                   slice assignment, the object store);
    - [Re]       : the regular expressions of [re] needed for [reg_exclude];
    - [World]    : the interpreter state around a [Checkpoint] (object store,
                   calling frame, files, clock, generator state, I/O log) and
                   the state-and-exception monad the methods run in;
    - the class attributes and the methods of [Checkpoint];
    - the notions the properties are stated with, and concrete states;
    - the exclusion pattern and the filter; loading; capturing and saving;
      construction; throttling; restoring; the round trip; the tests of the
      repository. *)

From Stdlib Require Import ZArith Ascii String.
From stdpp Require Import gmap strings list fin_maps.

Local Open Scope Z_scope.

(* ===================================================================== *)
(** ** Python objects *)
(* ===================================================================== *)

Module Py.

(** Runtime types. The first eleven are the names of module [types] used in
    [ALLOWED_TYPES]; [NdarrayType] and [GenericType] are [np.ndarray] and
    [np.generic]; the three of [FUNC_TYPES] follow; [BaseStringType] and
    [ObjectType] are [basestring] and [object]; [ClassType n] is any other
    class, named [n]. *)
Inductive pytype : Type :=
  | BooleanType | ComplexType | DictionaryType | FloatType | IntType
  | ListType | LongType | NoneType | StringType | TupleType | UnicodeType
  | NdarrayType | GenericType
  | FunctionType | GeneratorType | MethodType
  | BaseStringType | ObjectType
  | ClassType (name : string).

#[global] Instance pytype_eq_dec : EqDecision pytype.
Proof. solve_decision. Defined.

(** Objects by content. Floats carry their bit pattern; an [ndarray] is
    one-dimensional; [PyInstance] is an instance of a class that is not built
    in: the class name, the rest of its method resolution order, whether
    instances carry an attribute table, and the built-in payload for classes
    that derive from a built-in one (numpy scalars derive from [np.generic]). *)
#[warnings="-register-all"]
Inductive pyval : Type :=
  | PyNone
  | PyBool (b : bool)
  | PyInt (n : Z)
  | PyLong (n : Z)
  | PyFloat (bits : Z)
  | PyComplex (re im : Z)
  | PyStr (s : string)
  | PyUnicode (s : string)
  | PyList (items : list pyval)
  | PyTuple (items : list pyval)
  | PyDict (items : list (pyval * pyval))
  | PyNdarray (items : list pyval)
  | PyFunction (name : string)
  | PyInstance (cls : string) (bases : list pytype) (has_dict : bool)
               (payload : pyval).

#[global] Instance pyval_inhabited : Inhabited pyval := populate PyNone.

(** [type(v).__mro__] *)
Definition mro (v : pyval) : list pytype :=
  match v with
  | PyNone => [NoneType; ObjectType]
  | PyBool _ => [BooleanType; IntType; ObjectType]
  | PyInt _ => [IntType; ObjectType]
  | PyLong _ => [LongType; ObjectType]
  | PyFloat _ => [FloatType; ObjectType]
  | PyComplex _ _ => [ComplexType; ObjectType]
  | PyStr _ => [StringType; BaseStringType; ObjectType]
  | PyUnicode _ => [UnicodeType; BaseStringType; ObjectType]
  | PyList _ => [ListType; ObjectType]
  | PyTuple _ => [TupleType; ObjectType]
  | PyDict _ => [DictionaryType; ObjectType]
  | PyNdarray _ => [NdarrayType; ObjectType]
  | PyFunction _ => [FunctionType; ObjectType]
  | PyInstance c bases _ _ => ClassType c :: bases
  end.


(** [isinstance(v, types)] for a tuple of types. *)
Definition isinstance (v : pyval) (types : list pytype) : bool :=
  existsb (λ t, bool_decide (t ∈ mro v)) types.

(** [hasattr(v, '__dict__')]: instances of the built-in types have no
    attribute table, functions have one, for other classes it depends on the
    class ([__slots__], extension types). *)
Definition hasattr_dict (v : pyval) : bool :=
  match v with
  | PyFunction _ => true
  | PyInstance _ _ d _ => d
  | _ => false
  end.

(** [v is None] *)
Definition is_None (v : pyval) : bool :=
  match v with PyNone => true | _ => false end.

(** The items [list(v)] iterates over; [None] when [v] is not iterable. *)
Fixpoint chars (s : string) : list pyval :=
  match s with
  | EmptyString => []
  | String c s' => PyStr (String c EmptyString) :: chars s'
  end.

Fixpoint iterate (v : pyval) : option (list pyval) :=
  match v with
  | PyStr s => Some (chars s)
  | PyUnicode s => Some (chars s)
  | PyList l | PyTuple l | PyNdarray l => Some l
  | PyDict kvs => Some (kvs.*1)
  | PyInstance _ _ _ p => iterate p
  | _ => None
  end.

(** Outcome of the statement [target[:] = v]. *)
Inductive slice_result : Type :=
  | Assigned (target' : pyval)   (* the target object, mutated in place *)
  | TypeError                    (* what [restore] catches *)
  | ValueError.                  (* any other exception *)

(** [target[:] = v]. A list takes the items of any iterable; an array takes
    a scalar (broadcast) or as many items as it has, and raises [ValueError]
    on a shape mismatch; a dict raises [TypeError] (a slice does not hash),
    and so does every object without item assignment. *)
Definition broadcast (n : nat) (v : pyval) : option (list pyval) :=
  match iterate v with
  | None => Some (replicate n v)
  | Some [x] => Some (replicate n x)
  | Some l => if decide (length l = n) then Some l else None
  end.

Fixpoint setslice (target v : pyval) : slice_result :=
  match target with
  | PyList _ =>
      match iterate v with
      | Some l => Assigned (PyList l)
      | None => TypeError
      end
  | PyNdarray old =>
      match broadcast (length old) v with
      | Some l => Assigned (PyNdarray l)
      | None => ValueError
      end
  | PyInstance c bases d p =>
      match setslice p v with
      | Assigned p' => Assigned (PyInstance c bases d p')
      | r => r
      end
  | _ => TypeError
  end.

(** The object store: names and dict entries are bound to references, so
    that an object mutated in place is seen through every name bound to it.
    Elements of containers are held by content. *)
Abbreviation ref := nat (only parsing).
Abbreviation heap := (list pyval) (only parsing).

Definition deref (h : heap) (r : ref) : pyval := h !!! r.

Definition alloc (v : pyval) (h : heap) : ref * heap := (length h, h ++ [v]).

End Py.
Export Py.

(* ===================================================================== *)
(** ** Regular expressions of module [re] *)
(* ===================================================================== *)

Module Re.

(** The constructs that occur in [reg_exclude]. *)
Inductive regex : Type :=
  | Lit (c : ascii)          (* a literal character *)
  | Dot                      (* [.] *)
  | WordBoundary             (* [\b] *)
  | EndOfString              (* [$] *)
  | Seq (r1 r2 : regex)
  | Alt (r1 r2 : regex)      (* [r1|r2] *)
  | Star (r : regex).        (* [r*] *)

(** Compilation flags. *)
Record flags : Type := { DOTALL : bool; IGNORECASE : bool }.

Definition newline : ascii := "010"%char.

Definition is_word (c : ascii) : bool :=
  let n := nat_of_ascii c in
  ((48 <=? n) && (n <=? 57) || (65 <=? n) && (n <=? 90)
   || (97 <=? n) && (n <=? 122) || (n =? 95))%nat.

Definition lower (c : ascii) : ascii :=
  let n := nat_of_ascii c in
  if ((65 <=? n) && (n <=? 90))%nat then ascii_of_nat (n + 32) else c.

Definition lit_eq (f : flags) (c d : ascii) : bool :=
  if IGNORECASE f then bool_decide (lower c = lower d)
  else bool_decide (c = d).

(** [\b] at position [i] of [s]: exactly one of the characters before and
    after the position is a word character (outside the string counts as not
    a word character). *)
Definition word_at (s : list ascii) (i : nat) : bool :=
  match s !! i with Some c => is_word c | None => false end.

Definition boundary (s : list ascii) (i : nat) : bool :=
  xorb (match i with O => false | S j => word_at s j end) (word_at s i).

(** [$] without [MULTILINE]: the end of the string, or just before a newline
    that is the last character of the string. *)
Definition at_end (s : list ascii) (i : nat) : bool :=
  bool_decide (i = length s)
  || bool_decide (S i = length s) && bool_decide (s !! i = Some newline).

(** [r*] from position [i]: zero or more iterations of [step], each of which
    consumes at least one character (an iteration that consumes nothing adds
    no match), hence at most [fuel] iterations when [fuel] bounds what is left
    of the string. *)
Fixpoint iter_star (step : nat → list nat) (fuel : nat) (i : nat) : list nat :=
  i :: match fuel with
       | O => []
       | S fuel' =>
           filter (λ j, (i < j)%nat) (step i) ≫= iter_star step fuel'
       end.

(** The positions at which a match of [r] that starts at position [i] of [s]
    can end. *)
Fixpoint ends (f : flags) (r : regex) (s : list ascii) (i : nat) : list nat :=
  match r with
  | Lit c =>
      match s !! i with
      | Some d => if lit_eq f c d then [S i] else []
      | None => []
      end
  | Dot =>
      match s !! i with
      | Some d => if DOTALL f || negb (bool_decide (d = newline))
                  then [S i] else []
      | None => []
      end
  | WordBoundary => if boundary s i then [i] else []
  | EndOfString => if at_end s i then [i] else []
  | Seq r1 r2 => ends f r1 s i ≫= ends f r2 s
  | Alt r1 r2 => ends f r1 s i ++ ends f r2 s i
  | Star r1 => iter_star (ends f r1 s) (length s) i
  end.

(** [bool(re.compile(r, f).match(s))]: some match starts at position 0. *)
Definition re_match (f : flags) (r : regex) (s : string) : bool :=
  bool_decide (ends f r (list_ascii_of_string s) 0 ≠ []).

End Re.
Export Re.

(* ===================================================================== *)
(** ** Class attributes and the filter of [Checkpoint] *)
(* ===================================================================== *)

Definition NUMPY_RAND_SEED : string := "__rand_seed__".

Definition FUNC_TYPES : list pytype := [FunctionType; GeneratorType; MethodType].

(** [reg_exclude = re.compile(r'\b_|.*_$', re.DOTALL | re.I)] *)
Definition underscore : ascii := "_"%char.

Definition reg_exclude_pattern : regex :=
  Alt (Seq WordBoundary (Lit underscore))
      (Seq (Star Dot) (Seq (Lit underscore) EndOfString)).

Definition reg_exclude_flags : flags := {| DOTALL := true; IGNORECASE := true |}.

Definition reg_exclude (key : string) : bool :=
  re_match reg_exclude_flags reg_exclude_pattern key.

(** The class attributes of [Checkpoint]; [add_types] rebinds the first. *)
Record class_attrs : Type := {
  ALLOWED_TYPES : list pytype;
  CACHE_EXPIRE : Z;
}.

Definition default_attrs : class_attrs := {|
  ALLOWED_TYPES :=
    [BooleanType; ComplexType; DictionaryType; FloatType; IntType; ListType;
     LongType; NoneType; StringType; TupleType; UnicodeType;
     NdarrayType; GenericType];
  CACHE_EXPIRE := 24 * 3600;
|}.

(** [add_types(cls, *new_types)]: the tuple of the set of old and new types. *)
Definition add_types (new_types : list pytype) (cls : class_attrs) : class_attrs :=
  {| ALLOWED_TYPES := remove_dups (ALLOWED_TYPES cls ++ new_types);
     CACHE_EXPIRE := CACHE_EXPIRE cls |}.

(** [must_save(self, key, value)] *)
Definition must_save (cls : class_attrs) (key : string) (value : pyval) : bool :=
  if reg_exclude key then false
  else if hasattr_dict value then false
  else isinstance value (ALLOWED_TYPES cls).

(* ===================================================================== *)
(** ** The interpreter state around a checkpoint *)
(* ===================================================================== *)

Module World.

(** A dict with string keys: names bound to objects of the store. *)
Abbreviation pydict := (gmap string ref).

(** What [pickle.dump] writes for a dict: its entries by content. *)
Abbreviation snapshot := (gmap string pyval).

(** The frame of the routine that uses the checkpoint: [frame.f_locals] and
    [code.co_varnames[:code.co_argcount]]. *)
Record frame : Type := {
  f_locals : pydict;
  calling_args : list string;
}.

(** A file: [os.stat(path).st_mtime] and what [pickle.load] makes of the
    decompressed content. *)
Inductive content : Type :=
  | Pickled (s : snapshot)
  | Undecodable.

Record file : Type := { st_mtime : Z; data : content }.

Inductive io_event : Type :=
  | FileRead (path : string)
  | FileWrite (path : string) (s : snapshot).

(** A [Checkpoint] object: its entries as a dict, and its attributes. *)
Record checkpoint : Type := {
  entries : pydict;
  filename : string;
  _cached : pydict;
  modified : Z;
  rate : Z;
}.

Definition set_entries (d : pydict) (self : checkpoint) : checkpoint :=
  {| entries := d; filename := filename self; _cached := _cached self;
     modified := modified self; rate := rate self |}.

Definition set_cached (d : pydict) (self : checkpoint) : checkpoint :=
  {| entries := entries self; filename := filename self; _cached := d;
     modified := modified self; rate := rate self |}.

Definition set_modified (t : Z) (self : checkpoint) : checkpoint :=
  {| entries := entries self; filename := filename self;
     _cached := _cached self; modified := t; rate := rate self |}.

(** The clock is the sequence of readings that successive calls observe;
    [ticks] counts the readings taken so far. Times are in seconds, as exact
    numbers. [chp] is the checkpoint object of the running routine. *)
Record world : Type := {
  objects : heap;
  caller : frame;
  chp : checkpoint;
  files : gmap string file;
  clock : nat → Z;
  ticks : nat;
  random_state : pyval;          (* the state behind [np.random] *)
  io_log : list io_event;        (* most recent first *)
  cls : class_attrs;
}.

Definition set_objects (h : heap) (w : world) : world :=
  {| objects := h; caller := caller w; chp := chp w; files := files w;
     clock := clock w; ticks := ticks w; random_state := random_state w;
     io_log := io_log w; cls := cls w |}.

Definition set_locals (loc : pydict) (w : world) : world :=
  {| objects := objects w;
     caller := {| f_locals := loc; calling_args := calling_args (caller w) |};
     chp := chp w; files := files w; clock := clock w; ticks := ticks w;
     random_state := random_state w; io_log := io_log w; cls := cls w |}.

Definition set_chp (c : checkpoint) (w : world) : world :=
  {| objects := objects w; caller := caller w; chp := c; files := files w;
     clock := clock w; ticks := ticks w; random_state := random_state w;
     io_log := io_log w; cls := cls w |}.

Definition set_files (fs : gmap string file) (ev : io_event) (w : world) : world :=
  {| objects := objects w; caller := caller w; chp := chp w; files := fs;
     clock := clock w; ticks := ticks w; random_state := random_state w;
     io_log := ev :: io_log w; cls := cls w |}.

Definition log_event (ev : io_event) (w : world) : world :=
  set_files (files w) ev w.

Definition set_ticks (n : nat) (w : world) : world :=
  {| objects := objects w; caller := caller w; chp := chp w; files := files w;
     clock := clock w; ticks := n; random_state := random_state w;
     io_log := io_log w; cls := cls w |}.

Definition set_random_state (s : pyval) (w : world) : world :=
  {| objects := objects w; caller := caller w; chp := chp w; files := files w;
     clock := clock w; ticks := ticks w; random_state := s;
     io_log := io_log w; cls := cls w |}.

(** Exceptions that leave the module. *)
Inductive exn : Type :=
  | UnpicklingError          (* the file content does not decode *)
  | SliceAssignError.        (* [target[:] = v] failed, not by [TypeError] *)

Inductive result (A : Type) : Type :=
  | Ok (a : A)
  | Raise (e : exn).
Arguments Ok {A} a.
Arguments Raise {A} e.

(** Computations: state passing, with exceptions. *)
Definition M (A : Type) : Type := world → result A * world.

#[global] Instance M_ret : MRet M := λ A a w, (Ok a, w).
#[global] Instance M_bind : MBind M := λ A B k c w,
  match c w with
  | (Ok a, w') => k a w'
  | (Raise e, w') => (Raise e, w')
  end.

Definition get : M world := λ w, (Ok w, w).
Definition modify (f : world → world) : M unit := λ w, (Ok tt, f w).
Definition raise {A} (e : exn) : M A := λ w, (Raise e, w).

(** Reading and updating [self]. *)
Definition get_self : M checkpoint := w ← get; mret (chp w).
Definition modify_self (f : checkpoint → checkpoint) : M unit :=
  modify (λ w, set_chp (f (chp w)) w).

(** [time.time()] *)
Definition time_time : M Z :=
  w ← get; modify (set_ticks (S (ticks w)));; mret (clock w (ticks w)).

(** [np.random.get_state()] returns a new object; [np.random.set_state(s)]. *)
Definition new_object (v : pyval) : M ref :=
  w ← get;
  let '(r, h) := alloc v (objects w) in
  modify (set_objects h);; mret r.

Definition np_random_get_state : M ref :=
  w ← get; new_object (random_state w).

Definition np_random_set_state (seed : ref) : M unit :=
  w ← get; modify (set_random_state (deref (objects w) seed)).

(** [pickle.dump(d, file_)] through the compressor: the file at [path] is
    replaced by the entries of [d] by content and stamped with the clock. *)
Definition pickle_dump (d : pydict) (path : string) : M unit :=
  w ← get;
  let s : snapshot := deref (objects w) <$> d in
  mtime ← time_time;
  w ← get;
  modify (set_files (<[path := {| st_mtime := mtime; data := Pickled s |}]> (files w))
                    (FileWrite path s)).

(** [pickle.load(file_)]: the entries become new objects of the store. *)
Fixpoint load_items (items : list (string * pyval)) : M (list (string * ref)) :=
  match items with
  | [] => mret []
  | (key, v) :: rest =>
      r ← new_object v;
      bound ← load_items rest;
      mret ((key, r) :: bound)
  end.

Definition pickle_load (path : string) (c : content) : M pydict :=
  modify (log_event (FileRead path));;
  match c with
  | Pickled s => bound ← load_items (map_to_list s); mret (list_to_map bound)
  | Undecodable => raise UnpicklingError
  end.

End World.
Export World.

(* ===================================================================== *)
(** ** class Checkpoint(dict) *)
(* ===================================================================== *)

(** [d.update(other)]: the entries of [other] win. *)
Definition update (d other : pydict) : pydict := other ∪ d.

(** The loop of [context] over [loc.items()]. *)
Fixpoint context_loop (attrs : class_attrs) (h : heap) (args : list string)
    (items : list (string * ref)) (data : pydict) : pydict :=
  match items with
  | [] => data
  | (key, value) :: rest =>
      if decide (key ∈ args) then context_loop attrs h args rest data
      else if must_save attrs key (deref h value)
      then context_loop attrs h args rest (<[key := value]> data)
      else context_loop attrs h args rest data
  end.

(** The property [context]: [dict(self)] with the eligible locals of the
    first frame outside the module written over it. That frame is the one of
    the routine that called into the module, [caller]. *)
Definition context : M pydict :=
  w ← get;
  let frame := caller w in
  mret (context_loop (cls w) (objects w) (calling_args frame)
          (map_to_list (f_locals frame)) (entries (chp w))).

(** [save(self, **data)] *)
Definition save (data : pydict) : M unit :=
  context ← context;
  self ← get_self;
  let context := update context (entries self) in
  let context := update context data in
  pickle_dump context (filename self);;
  now ← time_time;
  modify_self (set_modified now).

(** [_load(self, clean)] *)
Definition _load (clean : bool) : M pydict :=
  w ← get;
  let self := chp w in
  match files w !! filename self with
  | Some f =>
      if clean then mret ∅
      else
        now ← time_time;
        if decide (now - st_mtime f > CACHE_EXPIRE (cls w)) then mret ∅
        else pickle_load (filename self) (data f)
  | None => mret ∅
  end.

(** [seed = data.get(NUMPY_RAND_SEED)] followed by the test
    [seed is not None]: the entry, when there is one and it is not [None]. *)
Definition get_not_None (h : heap) (data : pydict) (key : string) : option ref :=
  match data !! key with
  | Some r => if is_None (deref h r) then None else Some r
  | None => None
  end.

(** [self[key] = value] *)
Definition setitem (key : string) (value : ref) : M unit :=
  modify_self (λ self, set_entries (<[key := value]> (entries self)) self).

(** [_recover_internal_status(self, **data)] *)
Definition _recover_internal_status (data : pydict) : M unit :=
  w ← get;
  let data := update data (_cached (chp w)) in
  match get_not_None (objects w) data NUMPY_RAND_SEED with
  | Some seed =>
      np_random_set_state seed;;
      setitem NUMPY_RAND_SEED seed
  | None =>
      seed ← np_random_get_state;
      setitem NUMPY_RAND_SEED seed;;
      save ∅
  end.

(** The object at the start of [__init__]: an empty dict, [modified = 0],
    the given [rate], and the resolved [filename]. *)
Definition blank (path : string) (rate : Z) : checkpoint :=
  {| entries := ∅; filename := path; _cached := ∅; modified := 0;
     rate := rate |}.

(** [__init__(self, filename, clean, rate)], from the resolved path on: the
    search for an existing file and the expansion of the path (lines 102 to
    127) are left to the caller, who passes the path they yield. *)
Definition __init__ (path : string) (clean : bool) (rate : Z) : M unit :=
  modify (set_chp (blank path rate));;
  cached ← _load clean;
  modify_self (set_cached cached);;
  _recover_internal_status ∅.

(** The loop of [restore] over [data.items()]; [loc] is the dict of the
    caller's locals. *)
Fixpoint restore_loop (args : list string) (items : list (string * ref))
    (loc : pydict) : M pydict :=
  match items with
  | [] => mret loc
  | (key, value) :: rest =>
      if decide (key ∈ args) then restore_loop args rest loc
      else if decide (key ∈ dom loc)
      then restore_loop args rest (<[key := value]> loc)
      else
        w ← get;
        match entries (chp w) !! key with
        | Some target =>
            match setslice (deref (objects w) target) (deref (objects w) value) with
            | Assigned v' =>
                modify (set_objects (<[target := v']> (objects w)));;
                restore_loop args rest loc
            | TypeError =>
                setitem key value;;
                restore_loop args rest loc
            | ValueError => raise SliceAssignError
            end
        | None => restore_loop args rest loc
        end
  end.

(** [restore(self, **data)]. The caller is a function frame: the updates of
    [loc] reach its variables when [PyFrame_LocalsToFast] runs, after the
    loop. *)
Definition restore (data : pydict) : M unit :=
  w ← get;
  let data := update data (_cached (chp w)) in
  let frame := caller w in
  loc ← restore_loop (calling_args frame) (map_to_list data) (f_locals frame);
  modify (set_locals loc);;
  modify_self (set_cached ∅).

(** [sync(self)] *)
Definition sync : M unit :=
  now ← time_time;
  self ← get_self;
  if decide (now - modified self >= rate self) then save ∅
  else mret tt.

(* ===================================================================== *)
(** ** Notions the properties are stated with *)
(* ===================================================================== *)

(** The first and the last character of a name. *)
Definition leading (key : string) : option ascii :=
  head (list_ascii_of_string key).

Definition trailing (key : string) : option ascii :=
  last (list_ascii_of_string key).

(** A call [self.must_save(key, value)] in the interpreter state: the
    whitelist is read from the class, the value is an object of the store. *)
Definition must_save_call (key : string) (value : ref) : M bool :=
  w ← get; mret (must_save (cls w) key (deref (objects w) value)).

(** Writes to disk so far. *)
Definition is_write (ev : io_event) : bool :=
  match ev with FileWrite _ _ => true | FileRead _ => false end.

Definition writes (w : world) : nat :=
  length (filter (λ ev, is_write ev = true) (io_log w)).

(** The snapshot stored at [path], when the file there decodes. *)
Definition persisted (w : world) (path : string) : option snapshot :=
  match files w !! path with
  | Some {| data := Pickled s |} => Some s
  | _ => None
  end.


(** A local of the caller that [context] captures: not a parameter, and
    accepted by the filter. *)
Definition eligible (w : world) (key : string) (value : ref) : bool :=
  bool_decide (key ∉ calling_args (caller w))
  && must_save (cls w) key (deref (objects w) value).

(** The file is older than the expiration window at the next clock reading. *)
Definition expired (w : world) (f : file) : Prop :=
  clock w (ticks w) - st_mtime f > CACHE_EXPIRE (cls w).






(** The test of [sync] at the next clock reading. *)
Definition gate_open (w : world) : Prop :=
  clock w (ticks w) - modified (chp w) >= rate (chp w).

(** What the loop of [restore] leaves alone: everything but the content of
    the store and the bindings of the keys of the checkpoint. *)
Definition loop_frame (w w' : world) : Prop :=
  caller w' = caller w ∧ files w' = files w ∧ clock w' = clock w
  ∧ ticks w' = ticks w ∧ random_state w' = random_state w
  ∧ io_log w' = io_log w ∧ cls w' = cls w
  ∧ length (objects w') = length (objects w)
  ∧ dom (entries (chp w')) = dom (entries (chp w))
  ∧ set_entries ∅ (chp w') = set_entries ∅ (chp w).


(** [ctx[x]]: the content of the object that the caller's local [x] is
    bound to. *)
Definition value_of (w : world) (x : string) : option pyval :=
  deref (objects w) <$> f_locals (caller w) !! x.


(** The host routine, between its calls into the module: the statement
    [name = v], and a draw from [np.random], which returns a number and
    moves the generator to its next state. *)
Definition host_assign (name : string) (v : pyval) : M unit :=
  r ← new_object v;
  w ← get;
  modify (set_locals (<[name := r]> (f_locals (caller w)))).

Definition host_draw (step : pyval → pyval * pyval) : M pyval :=
  w ← get;
  let '(x, s) := step (random_state w) in
  modify (set_random_state s);; mret x.

(** Unfolds the monad and the primitive operations. *)
Ltac run :=
  unfold mbind, M_bind, mret, M_ret, get_self, modify_self, get, modify, raise;
  simpl.

(* ===================================================================== *)
(** ** Locating the checkpoint file *)
(* ===================================================================== *)

(** [re.compile(pattern)] without flags, and [regexp.search(name)]: a match
    that starts at some position of the name. *)
Definition no_flags : flags := {| DOTALL := false; IGNORECASE := false |}.

Definition re_search (f : flags) (r : regex) (s : string) : bool :=
  let cs := list_ascii_of_string s in
  existsb (λ i, bool_decide (ends f r cs i ≠ [])) (seq 0 (S (length cs))).

(** The patterns that [find] is called with are file names. The parser is
    modelled for the patterns made of ordinary characters and of dots: a
    dot is the wildcard, any other character of the syntax of [re] puts the
    pattern outside the fragment, and so does the empty pattern. *)
Definition special (c : ascii) : bool :=
  bool_decide (c ∈ list_ascii_of_string "\^$.|?*+()[]{}").

Definition atom (c : ascii) : option regex :=
  if bool_decide (c = "."%char) then Some Dot
  else if special c then None
  else Some (Lit c).

Fixpoint compile_chars (cs : list ascii) : option regex :=
  match cs with
  | [] => None
  | [c] => atom c
  | c :: rest =>
      a ← atom c; r ← compile_chars rest; Some (Seq a r)
  end.

Definition re_compile (pattern : string) : option regex :=
  compile_chars (list_ascii_of_string pattern).

(** [s.startswith(t)] and [s.endswith(t)] *)
Definition startswith (s t : string) : bool :=
  bool_decide (list_ascii_of_string t `prefix_of` list_ascii_of_string s).

Definition endswith (s t : string) : bool :=
  bool_decide (list_ascii_of_string t `suffix_of` list_ascii_of_string s).

(** [os.path.join(a, b)] of [posixpath]. *)
Definition os_path_join (a b : string) : string :=
  if startswith b "/" then b
  else if bool_decide (a = EmptyString) || endswith a "/" then a +:+ b
  else a +:+ "/" +:+ b.




(** A directory as [os.walk] sees it: the names of its files, and its
    subdirectories by name, both in the order of [os.listdir]. *)
#[warnings="-register-all"]
Inductive tree : Type :=
  | Dir (files : list string) (dirs : list (string * tree)).

(** [os.walk(top)], top down: the pairs of a directory path and of the
    names of its files. *)
Fixpoint os_walk (top : string) (t : tree) : list (string * list string) :=
  match t with
  | Dir files dirs =>
      (top, files)
      :: (fix walk_dirs (ds : list (string * tree)) :=
            match ds with
            | [] => []
            | (name, sub) :: ds' =>
                os_walk (os_path_join top name) sub ++ walk_dirs ds'
            end) dirs
  end.

(** The inner loop of [find] over the files of one directory, and the outer
    loop over the directories. *)
Fixpoint find_in (regexp : regex) (root : string) (files : list string)
    : option string :=
  match files with
  | [] => None
  | name :: rest =>
      if re_search no_flags regexp name then Some (os_path_join root name)
      else find_in regexp root rest
  end.

Fixpoint find_loop (regexp : regex) (walk : list (string * list string))
    : option string :=
  match walk with
  | [] => None
  | (root, files) :: rest =>
      match find_in regexp root files with
      | Some path => Some path
      | None => find_loop regexp rest
      end
  end.

(** [find(pattern)], after [re.compile(pattern)] has given [regexp]; [cwd]
    is the current directory. *)
Definition find (regexp : regex) (cwd : tree) : option string :=
  find_loop regexp (os_walk "." cwd).





(** A pattern of the fragment against a text of the same length: a dot
    stands for any character but the newline. *)
Fixpoint fits (pat sub : list ascii) : bool :=
  match pat, sub with
  | [], [] => true
  | p :: pat', c :: sub' =>
      (if bool_decide (p = "."%char) then negb (bool_decide (c = newline))
       else bool_decide (p = c))
      && fits pat' sub'
  | _, _ => false
  end.

(* ===================================================================== *)
(** ** A loop of the routine *)
(* ===================================================================== *)

(** [for _ in range(n): chp.sync()] *)
Fixpoint syncs (n : nat) : M unit :=
  match n with
  | O => mret tt
  | S n' => sync;; syncs n'
  end.

(* ===================================================================== *)
(** ** Concrete names, objects and states used in the examples *)
(* ===================================================================== *)

(** The name [a_] followed by a newline. *)
Definition name_a_underscore_newline : string :=
  String "a" (String "_" (String "010" EmptyString)).

Definition work_path : string := ".checkpoints/compute.pzip".

Definition generator_state : pyval := PyTuple [PyStr "MT19937"; PyInt 42].

Definition new_checkpoint : checkpoint := blank work_path 30.

(** A first run, no file on disk: the routine has a parameter [n = 5] and a
    local [foo = 'bar']; the clock reads 1000, 1001, ... *)
Definition first_run : world :=
  {| objects := [PyStr "bar"; PyInt 5];
     caller := {| f_locals := {[ "foo" := 0%nat; "n" := 1%nat ]};
                  calling_args := ["n"] |};
     chp := new_checkpoint;
     files := ∅;
     clock := λ i, 1000 + Z.of_nat i; ticks := 0;
     random_state := generator_state;
     io_log := []; cls := default_attrs |}.

(** The state once the constructor has run in [first_run]. *)
Definition constructed : world := (__init__ work_path true 30 first_run).2.



(** A later run of the routine of [first_run], at time 2000: the file that
    [constructed] saved is on disk, [foo] is a placeholder. *)
Definition second_run : world :=
  {| objects := [PyStr "buzz"; PyInt 7];
     caller := {| f_locals := {[ "foo" := 0%nat; "n" := 1%nat ]};
                  calling_args := ["n"] |};
     chp := new_checkpoint;
     files := files (save ∅ constructed).2;
     clock := λ i, 2000 + Z.of_nat i; ticks := 0;
     random_state := PyTuple [PyStr "MT19937"; PyInt 7];
     io_log := []; cls := default_attrs |}.

(** The same run with a file that does not decode. *)
Definition corrupt_run : world :=
  {| objects := objects second_run; caller := caller second_run;
     chp := new_checkpoint;
     files := {[ work_path := {| st_mtime := 1990; data := Undecodable |} ]};
     clock := clock second_run; ticks := 0;
     random_state := random_state second_run;
     io_log := []; cls := default_attrs |}.

(** The state once the constructor has run in [second_run]: the generator
    state was loaded, nothing was saved yet. *)
Definition resumed : world := (__init__ work_path false 30 second_run).2.

(** [resumed], with two more entries in the loaded snapshot: one under the
    name of the parameter [n], one under a name that the routine does not
    use. Both are bound to the object 0, the string ['buzz']. *)
Definition resumed_more : world :=
  set_chp
    (set_cached (<["n" := 0%nat]> (<["extra" := 0%nat]> (_cached (chp resumed))))
       (chp resumed))
    resumed.



(** The tests of the repository start in an empty frame, on an empty disk. *)
Definition test_start : world :=
  {| objects := [];
     caller := {| f_locals := ∅; calling_args := [] |};
     chp := new_checkpoint;
     files := ∅;
     clock := λ i, 1000 + Z.of_nat i; ticks := 0;
     random_state := PyInt 42;
     io_log := []; cls := default_attrs |}.

(** A linear congruential generator stands for the generator of numpy. *)
Definition lcg (s : pyval) : pyval * pyval :=
  match s with
  | PyInt n =>
      (PyInt (n mod 1000), PyInt ((1103515245 * n + 12345) mod 2147483648))
  | _ => (PyNone, s)
  end.

(** [test_checkpoint]: construct, set [foo], save; construct again from the
    file, set [foo] to something else, restore. *)
Definition test_checkpoint_body : M unit :=
  __init__ work_path true 30;;
  host_assign "foo" (PyStr "bar");;
  save ∅;;
  __init__ work_path false 30;;
  host_assign "foo" (PyStr "buzz");;
  restore ∅.

(** [test_radom_seed]: construct, draw twice, save; construct again from
    the file and draw twice. The result is the four draws. *)
Definition test_radom_seed_body : M (list pyval) :=
  __init__ work_path true 30;;
  seq_1 ← host_draw lcg;
  foo ← host_draw lcg;
  save ∅;;
  __init__ work_path false 30;;
  seq_2 ← host_draw lcg;
  bar ← host_draw lcg;
  mret [seq_1; foo; seq_2; bar].

(** A checkpoint that holds a list under the key [best]; the routine has
    another name, [alias], for the same list; the loaded snapshot has a
    longer list for [best]. *)
Definition holding_list : world :=
  {| objects := [PyList [PyInt 1]; PyList [PyInt 1; PyInt 2; PyInt 3]];
     caller := {| f_locals := {[ "alias" := 0%nat ]}; calling_args := [] |};
     chp := set_cached {[ "best" := 1%nat ]}
              (set_entries {[ "best" := 0%nat ]} new_checkpoint);
     files := ∅;
     clock := λ i, 1000 + Z.of_nat i; ticks := 0;
     random_state := generator_state;
     io_log := []; cls := default_attrs |}.

(** A directory with a backup file, and checkpoints further down. *)
Definition project_dir : tree :=
  Dir ["readme"; "b.pzip.bak"]
      [("sub", Dir ["a.pzip"] [("deep", Dir ["b.pzip"] [])]);
       ("other", Dir ["b.pzip"] [])].

(** The compiled pattern [b.pzip]. *)
Definition pattern_b_pzip : regex := default Dot (re_compile "b.pzip").

(* ===================================================================== *)
(** ** The exclusion pattern *)
(* ===================================================================== *)

Section regex_facts.
Implicit Types (s : list ascii) (i j : nat).

Lemma nonempty_elem {A} (l : list A) : l ≠ [] ↔ ∃ x, x ∈ l.
Proof.
  destruct l as [|a l]; split; try done.
  - intros [x Hx]. by apply not_elem_of_nil in Hx.
  - intros _. exists a. left.
Qed.

Lemma lit_underscore d :
  lit_eq reg_exclude_flags underscore d = bool_decide (d = underscore).
Proof. by destruct d as [[] [] [] [] [] [] [] []]. Qed.

Lemma ends_dot s i :
  ends reg_exclude_flags Dot s i
  = if decide (i < length s)%nat then [S i] else [].
Proof.
  simpl. case_decide as Hi.
  - apply lookup_lt_is_Some in Hi as [d ->]. done.
  - rewrite lookup_ge_None_2; [done | lia].
Qed.

(** [.*] under [DOTALL] reaches every position up to the end. *)
Lemma iter_star_dot s fuel i j :
  (i ≤ length s)%nat → (length s ≤ i + fuel)%nat →
  j ∈ iter_star (ends reg_exclude_flags Dot s) fuel i ↔ (i ≤ j ≤ length s)%nat.
Proof.
  revert i. induction fuel as [|fuel IH]; intros i Hi Hfuel.
  - simpl. rewrite elem_of_cons, elem_of_nil. lia.
  - cbn [iter_star]. rewrite elem_of_cons, list_elem_of_bind.
    setoid_rewrite list_elem_of_filter. rewrite ends_dot.
    case_decide as Hlt.
    + split.
      * intros [-> | (k & Hj & Hk & Hin)]; [lia |].
        apply list_elem_of_singleton in Hin as ->.
        apply IH in Hj; lia.
      * intros Hj. destruct (decide (j = i)) as [-> | Hne]; [by left | right].
        exists (S i). split_and!; [apply IH; lia | lia |].
        by apply list_elem_of_singleton.
    + split.
      * intros [-> | (k & _ & _ & Hin)]; [lia |].
        by apply not_elem_of_nil in Hin.
      * intros Hj. left. lia.
Qed.

Lemma ends_lit s i x :
  x ∈ ends reg_exclude_flags (Lit underscore) s i ↔
  s !! i = Some underscore ∧ x = S i.
Proof.
  cbn [ends]. destruct (s !! i) as [d|].
  - rewrite lit_underscore. case_bool_decide as Hd.
    + subst d. rewrite list_elem_of_singleton. tauto.
    + rewrite elem_of_nil. split; [done | intros [[= ?] _]; done].
  - rewrite elem_of_nil. split; [done | intros [? _]; done].
Qed.

Lemma match_leading s :
  (∃ x, x ∈ ends reg_exclude_flags (Seq WordBoundary (Lit underscore)) s 0) ↔
  head s = Some underscore.
Proof.
  rewrite head_lookup. cbn [ends]. setoid_rewrite list_elem_of_bind.
  setoid_rewrite ends_lit. split.
  - intros (x & y & [Hy ->] & Hin).
    destruct (boundary s 0); [| by apply not_elem_of_nil in Hin].
    by apply list_elem_of_singleton in Hin as ->.
  - intros Hs. exists 1%nat, 0%nat. split; [done |].
    unfold boundary, word_at. rewrite Hs. by apply list_elem_of_singleton.
Qed.

Lemma at_end_iff s i :
  at_end s i = true ↔
  i = length s ∨ (S i = length s ∧ s !! i = Some newline).
Proof.
  unfold at_end. by rewrite orb_true_iff, andb_true_iff, !bool_decide_eq_true.
Qed.

Lemma match_trailing s :
  (∃ x, x ∈ ends reg_exclude_flags
              (Seq (Star Dot) (Seq (Lit underscore) EndOfString)) s 0) ↔
  ∃ j, s !! j = Some underscore ∧ at_end s (S j) = true.
Proof.
  cbn [ends]. setoid_rewrite list_elem_of_bind.
  setoid_rewrite list_elem_of_bind. setoid_rewrite ends_lit. split.
  - intros (x & j & (y & Hx & Hj & ->) & _). exists j. split; [done |].
    destruct (at_end s (S j)); [done | by apply not_elem_of_nil in Hx].
  - intros (j & Hj & Hend). exists (S j), j. split.
    + exists (S j). rewrite Hend. split; [by apply list_elem_of_singleton | done].
    + apply iter_star_dot; [lia | lia |].
      apply lookup_lt_Some in Hj. lia.
Qed.

Lemma trailing_shape s :
  (∃ j, s !! j = Some underscore ∧ at_end s (S j) = true) ↔
  last s = Some underscore ∨ ∃ p, s = p ++ [underscore; newline].
Proof.
  setoid_rewrite at_end_iff. split.
  - intros (j & Hj & [Hlen | [Hlen Hnl]]).
    + left. rewrite last_lookup, <- Hlen. done.
    + right. exists (take j s).
      rewrite <- (take_drop_middle s j underscore Hj) at 1. f_equal. f_equal.
      rewrite (drop_S s newline (S j) Hnl), drop_ge; [done | lia].
  - intros [Hlast | [p ->]].
    + rewrite last_lookup in Hlast. exists (pred (length s)). split; [done |].
      left. apply lookup_lt_Some in Hlast. lia.
    + exists (length p). split.
      * by rewrite lookup_app_r, Nat.sub_diag by lia.
      * right. rewrite length_app. simpl. split; [lia |].
        rewrite lookup_app_r by lia.
        by replace (S (length p) - length p)%nat with 1%nat by lia.
Qed.

(** What [reg_exclude.match(key)] accepts: a name that begins with an
    underscore, ends with one, or ends with one followed by a last
    newline (the [$] of the pattern also matches there). *)
Lemma reg_exclude_iff key :
  reg_exclude key = true ↔
  leading key = Some underscore ∨ trailing key = Some underscore
  ∨ ∃ p, list_ascii_of_string key = p ++ [underscore; newline].
Proof.
  unfold reg_exclude, re_match, leading, trailing.
  set (s := list_ascii_of_string key).
  rewrite bool_decide_eq_true, nonempty_elem. unfold reg_exclude_pattern.
  cbn [ends]. setoid_rewrite elem_of_app.
  rewrite <- match_leading, <- trailing_shape, <- match_trailing.
  cbn [ends]. split.
  - intros [x [Hx | Hx]]; [left | right]; by exists x.
  - intros [[x Hx] | [x Hx]]; exists x; [by left | by right].
Qed.

Lemma reg_exclude_no_newline key :
  trailing key ≠ Some newline →
  reg_exclude key = true ↔
  leading key = Some underscore ∨ trailing key = Some underscore.
Proof.
  intros Hnl. rewrite reg_exclude_iff. split; [| tauto].
  intros [? | [? | [p Hp]]]; [by left | by right |].
  exfalso. apply Hnl. unfold trailing. rewrite Hp.
  replace (p ++ [underscore; newline]) with ((p ++ [underscore]) ++ [newline])
    by (by rewrite <- app_assoc).
  apply last_snoc.
Qed.
End regex_facts.

(* ===================================================================== *)
(** ** The filter *)
(* ===================================================================== *)

Lemma must_save_true attrs key value :
  must_save attrs key value = true ↔
  reg_exclude key = false ∧ hasattr_dict value = false
  ∧ isinstance value (ALLOWED_TYPES attrs) = true.
Proof.
  unfold must_save.
  destruct (reg_exclude key), (hasattr_dict value); intuition congruence.
Qed.

(** C4, as the source has it. For a name that does not end with a newline (a
    Python identifier never does), [must_save(name, value)] is true exactly
    when the name neither begins nor ends with an underscore, the value has
    no [__dict__], and the value is an instance of a type of the current
    [ALLOWED_TYPES]; a call leaves the interpreter state as it was. *)
Theorem must_save_iff attrs key value :
  trailing key ≠ Some newline →
  (must_save attrs key value = true ↔
     leading key ≠ Some underscore ∧ trailing key ≠ Some underscore
     ∧ hasattr_dict value = false
     ∧ isinstance value (ALLOWED_TYPES attrs) = true)
  ∧ ∀ (r : ref) (w : world),
      must_save_call key r w
      = (Ok (must_save (cls w) key (deref (objects w) r)), w).
Proof.
  intros Hnl. split; [| done].
  rewrite must_save_true. rewrite <- not_true_iff_false.
  rewrite (reg_exclude_no_newline key Hnl). tauto.
Qed.

Lemma must_save_iff_witness :
  (must_save default_attrs "foo" (PyStr "bar") = true ↔
     leading "foo" ≠ Some underscore ∧ trailing "foo" ≠ Some underscore
     ∧ hasattr_dict (PyStr "bar") = false
     ∧ isinstance (PyStr "bar") (ALLOWED_TYPES default_attrs) = true)
  ∧ ∀ (r : ref) (w : world),
      must_save_call "foo" r w
      = (Ok (must_save (cls w) "foo" (deref (objects w) r)), w).
Proof.
  apply (must_save_iff default_attrs "foo" (PyStr "bar")).
  vm_compute. discriminate.
Defined.

(** C4 as stated fails for a name that ends with an underscore followed by
    a newline: its last character is not an underscore, the value is an
    allowed integer, and [must_save] is false. *)
Lemma must_save_trailing_newline :
  ¬ (must_save default_attrs name_a_underscore_newline (PyInt 1) = true ↔
       leading name_a_underscore_newline ≠ Some underscore
       ∧ trailing name_a_underscore_newline ≠ Some underscore
       ∧ hasattr_dict (PyInt 1) = false
       ∧ isinstance (PyInt 1) (ALLOWED_TYPES default_attrs) = true).
Proof.
  intros [_ H]. assert (false = true) as Hf; [| discriminate Hf].
  apply H. split_and!; vm_compute; done.
Qed.

(* ===================================================================== *)
(** ** Loading *)
(* ===================================================================== *)

Lemma load_items_spec items w :
  ∃ bound,
    load_items items w = (Ok bound, set_objects (objects w ++ items.*2) w)
    ∧ bound.*1 = items.*1
    ∧ ∀ k r, (k, r) ∈ bound →
        (length (objects w) ≤ r)%nat
        ∧ ∃ v, (k, v) ∈ items ∧ (objects w ++ items.*2) !! r = Some v.
Proof.
  revert w. induction items as [|[k v] rest IH]; intros w.
  - exists []. split_and!; [| done |].
    + simpl. run. rewrite app_nil_r. by destruct w.
    + intros k r Hin. by apply not_elem_of_nil in Hin.
  - destruct (IH (set_objects (objects w ++ [v]) w)) as (bound & Hrun & Hkeys & Hb).
    exists ((k, length (objects w)) :: bound). split_and!.
    + cbn [load_items]. unfold new_object, alloc. run.
      change (load_items rest _) with
        (load_items rest (set_objects (objects w ++ [v]) w)).
      rewrite Hrun. simpl. rewrite <- app_assoc. done.
    + by rewrite !fmap_cons, Hkeys.
    + intros k' r [[= -> ->] | Hin]%elem_of_cons.
      * split; [done |]. exists v. split; [left |].
        simpl. by rewrite lookup_app_r, Nat.sub_diag by lia.
      * destruct (Hb k' r Hin) as (Hr & v' & Hv' & Hlook). simpl in *.
        rewrite length_app in Hr. simpl in Hr. split; [lia |].
        exists v'. split; [by right |]. by rewrite <- app_assoc in Hlook.
Qed.

(** [pickle.load] of a file that decodes: the entries of the snapshot, as
    new objects after those of the store, and a read in the log. *)
Lemma pickle_load_Pickled path s w :
  let w' := set_objects (objects w ++ (map_to_list s).*2)
              (log_event (FileRead path) w) in
  ∃ d, pickle_load path (Pickled s) w = (Ok d, w')
       ∧ deref (objects w') <$> d = s
       ∧ ∀ k r, d !! k = Some r → (length (objects w) ≤ r)%nat.
Proof.
  intros w'.
  destruct (load_items_spec (map_to_list s) (log_event (FileRead path) w))
    as (bound & Hrun & Hkeys & Hb).
  assert (NoDup bound.*1) as Hnd.
  { rewrite Hkeys. apply NoDup_fst_map_to_list. }
  exists (list_to_map bound). split_and!.
  - unfold pickle_load. run. rewrite Hrun. done.
  - apply map_eq. intros k. rewrite lookup_fmap.
    destruct (list_to_map bound !! k) as [r|] eqn:Hd; simpl.
    + apply elem_of_list_to_map in Hd; [| done].
      destruct (Hb k r Hd) as (_ & v & Hv & Hlook).
      apply elem_of_map_to_list in Hv. rewrite Hv. f_equal.
      unfold deref. by apply list_lookup_total_correct.
    + apply not_elem_of_list_to_map in Hd. rewrite Hkeys in Hd.
      symmetry. apply eq_None_not_Some. intros [v Hv]. apply Hd.
      apply list_elem_of_fmap. exists (k, v). split; [done |].
      by apply elem_of_map_to_list.
  - intros k r Hd. apply elem_of_list_to_map in Hd; [| done].
    by destruct (Hb k r Hd).
Qed.




Lemma load_fresh w f :
  files w !! filename (chp w) = Some f → ¬ expired w f →
  _load false w
  = pickle_load (filename (chp w)) (data f) (set_ticks (S (ticks w)) w).
Proof.
  intros H Hexp. unfold _load, time_time. run. rewrite H.
  by rewrite decide_False.
Qed.


(* ===================================================================== *)
(** ** Capturing and saving *)
(* ===================================================================== *)

(** The loop of [context]: a local that is not a parameter and passes the
    filter is written over [data], every other key keeps what [data] has. *)
Lemma context_loop_lookup attrs h args items data key :
  NoDup items.*1 →
  context_loop attrs h args items data !! key
  = match (list_to_map items : pydict) !! key with
    | Some r =>
        if bool_decide (key ∉ args) && must_save attrs key (deref h r)
        then Some r else data !! key
    | None => data !! key
    end.
Proof.
  revert data key.
  induction items as [|[k r] rest IH]; intros data key Hnd; [done |].
  rewrite fmap_cons in Hnd. apply NoDup_cons in Hnd as [Hk Hnd].
  cbn [context_loop list_to_map foldr fst] in *.
  change (foldr _ ∅ rest) with (list_to_map rest : pydict).
  assert (∀ data', context_loop attrs h args rest data' !! k = data' !! k)
    as Hskip.
  { intros data'. rewrite IH by done.
    by rewrite (not_elem_of_list_to_map_1 rest k Hk). }
  destruct (decide (key = k)) as [-> | Hne].
  - rewrite lookup_insert_eq. destruct (decide (k ∈ args)) as [Hargs | Hargs].
    + rewrite Hskip. rewrite bool_decide_eq_false_2; [done | tauto].
    + rewrite bool_decide_eq_true_2 by done. simpl.
      destruct (must_save attrs k (deref h r)); rewrite Hskip; [| done].
      by rewrite lookup_insert_eq.
  - rewrite lookup_insert_ne by done.
    assert (∀ data', data' !! key = data !! key →
              context_loop attrs h args rest data' !! key
              = match (list_to_map rest : pydict) !! key with
                | Some r0 =>
                    if bool_decide (key ∉ args) && must_save attrs key (deref h r0)
                    then Some r0 else data !! key
                | None => data !! key
                end) as Hsame.
    { intros data' Hdata'. rewrite IH by done. by rewrite Hdata'. }
    destruct (decide (k ∈ args)); [by apply Hsame |].
    destruct (must_save attrs k (deref h r)); apply Hsame; [| done].
    by rewrite lookup_insert_ne.
Qed.

Lemma context_run w :
  ∃ d, context w = (Ok d, w)
       ∧ ∀ key, d !! key
                = match f_locals (caller w) !! key with
                  | Some r => if eligible w key r then Some r
                              else entries (chp w) !! key
                  | None => entries (chp w) !! key
                  end.
Proof.
  eexists. split; [done |]. intros key.
  rewrite context_loop_lookup by apply NoDup_fst_map_to_list.
  by rewrite list_to_map_to_list.
Qed.

(** The state after [save]: one more write, two clock readings. *)
Lemma save_run data w :
  ∃ d, context w = (Ok d, w)
       ∧ let s := deref (objects w) <$> update (update d (entries (chp w))) data in
         let path := filename (chp w) in
         save data w
         = (Ok tt,
            {| objects := objects w; caller := caller w;
               chp := set_modified (clock w (S (ticks w))) (chp w);
               files := <[path := {| st_mtime := clock w (ticks w);
                                     data := Pickled s |}]> (files w);
               clock := clock w; ticks := S (S (ticks w));
               random_state := random_state w;
               io_log := FileWrite path s :: io_log w; cls := cls w |}).
Proof.
  destruct (context_run w) as (d & Hd & _). exists d. split; [done |].
  unfold save, pickle_dump, time_time. run.
  unfold context in Hd. revert Hd. run. intros [= <-]. done.
Qed.







(* ===================================================================== *)
(** ** Construction *)
(* ===================================================================== *)

Lemma writes_read path w : writes (log_event (FileRead path) w) = writes w.
Proof. done. Qed.

(** [_load] changes the store (new objects), the clock reading and the log
    (a read), nothing else. *)
Lemma load_frame clean w res w' :
  _load clean w = (res, w') →
  chp w' = chp w ∧ caller w' = caller w ∧ files w' = files w
  ∧ random_state w' = random_state w ∧ writes w' = writes w
  ∧ cls w' = cls w ∧ clock w' = clock w.
Proof.
  unfold _load, time_time. run.
  destruct (files w !! filename (chp w)) as [f|]; [| by intros [= <- <-]].
  destruct clean; [by intros [= <- <-] |]. simpl.
  case_decide; [by intros [= <- <-] |].
  destruct (data f) as [s|].
  - destruct (pickle_load_Pickled (filename (chp w)) s
                (set_ticks (S (ticks w)) w)) as (d & Hrun & _).
    simpl in Hrun. rewrite Hrun. by intros [= <- <-].
  - unfold pickle_load. run. by intros [= <- <-].
Qed.

(** What [save] changes: the file, the log, the clock reading, and the time
    of the last save. *)
Lemma save_effect data w :
  ∃ w', save data w = (Ok tt, w')
        ∧ writes w' = S (writes w)
        ∧ chp w' = set_modified (clock w (S (ticks w))) (chp w)
        ∧ objects w' = objects w ∧ caller w' = caller w
        ∧ random_state w' = random_state w ∧ cls w' = cls w
        ∧ clock w' = clock w ∧ ticks w' = S (S (ticks w))
        ∧ ∃ s, io_log w' = FileWrite (filename (chp w)) s :: io_log w.
Proof.
  destruct (save_run data w) as (d & _ & Hrun). simpl in Hrun.
  eexists. split; [exact Hrun |]. split_and!; try done. by eexists.
Qed.

(** C7. A file that is there, is not expired and does not decode makes
    [_load] raise; the constructor does not catch the exception, so that it
    reaches the caller. The file is left as it is. *)
Theorem corrupt_file_raises path rate w f :
  files w !! path = Some f → ¬ expired w f → data f = Undecodable →
  (filename (chp w) = path →
     ∃ w', _load false w = (Raise UnpicklingError, w') ∧ files w' = files w)
  ∧ ∃ w', __init__ path false rate w = (Raise UnpicklingError, w')
          ∧ files w' = files w.
Proof.
  intros Hf Hexp Hdata. split.
  - intros <-. rewrite (load_fresh w f Hf Hexp), Hdata.
    unfold pickle_load. run. by eexists.
  - unfold __init__. run.
    rewrite (load_fresh (set_chp (blank path rate) w) f Hf Hexp), Hdata.
    unfold pickle_load. run. by eexists.
Qed.

Lemma corrupt_file_raises_witness :
  (filename (chp corrupt_run) = work_path →
     ∃ w', _load false corrupt_run = (Raise UnpicklingError, w')
           ∧ files w' = files corrupt_run)
  ∧ ∃ w', __init__ work_path false 30 corrupt_run = (Raise UnpicklingError, w')
          ∧ files w' = files corrupt_run.
Proof.
  apply (corrupt_file_raises work_path 30 corrupt_run
           {| st_mtime := 1990; data := Undecodable |}).
  - reflexivity.
  - unfold expired. vm_compute. discriminate.
  - reflexivity.
Defined.



(* ===================================================================== *)
(** ** Throttling *)
(* ===================================================================== *)

Lemma sync_run w :
  sync w = if decide (gate_open w) then save ∅ (set_ticks (S (ticks w)) w)
           else (Ok tt, set_ticks (S (ticks w)) w).
Proof. unfold sync, time_time, gate_open. run. by case_decide. Qed.

Lemma sync_open w :
  gate_open w →
  ∃ w', sync w = (Ok tt, w') ∧ writes w' = S (writes w)
        ∧ chp w' = set_modified (clock w (S (S (ticks w)))) (chp w)
        ∧ clock w' = clock w ∧ ticks w' = S (S (S (ticks w))).
Proof.
  intros Hg. rewrite sync_run, decide_True by done.
  destruct (save_effect ∅ (set_ticks (S (ticks w)) w))
    as (w' & Hrun & Hw & Hc & _ & _ & _ & _ & Hclock & Hticks & _).
  exists w'. by split_and!.
Qed.

Lemma sync_closed w :
  ¬ gate_open w → sync w = (Ok tt, set_ticks (S (ticks w)) w).
Proof. intros Hg. by rewrite sync_run, decide_False. Qed.





(* ===================================================================== *)
(** ** Restoring *)
(* ===================================================================== *)

Lemma loop_frame_refl w : loop_frame w w.
Proof. by unfold loop_frame. Qed.

Lemma loop_frame_trans w1 w2 w3 :
  loop_frame w1 w2 → loop_frame w2 w3 → loop_frame w1 w3.
Proof.
  unfold loop_frame. intros H1 H2. destruct_and!.
  split_and!; by etrans.
Qed.

Lemma loop_frame_objects w target v :
  loop_frame w (set_objects (<[target := v]> (objects w)) w).
Proof. unfold loop_frame. simpl. split_and!; try done. apply length_insert. Qed.

Lemma loop_frame_setitem w key value :
  is_Some (entries (chp w) !! key) →
  loop_frame w
    (set_chp (set_entries (<[key := value]> (entries (chp w))) (chp w)) w).
Proof.
  intros Hin. unfold loop_frame. simpl. split_and!; try done.
  by apply dom_insert_lookup_L.
Qed.

(** One step of the loop, by cases. *)
Lemma restore_loop_cons args key value rest loc w :
  restore_loop args ((key, value) :: rest) loc w
  = if decide (key ∈ args) then restore_loop args rest loc w
    else if decide (key ∈ dom loc)
    then restore_loop args rest (<[key := value]> loc) w
    else
      match entries (chp w) !! key with
      | Some target =>
          match setslice (deref (objects w) target) (deref (objects w) value) with
          | Assigned v' =>
              restore_loop args rest loc
                (set_objects (<[target := v']> (objects w)) w)
          | TypeError =>
              restore_loop args rest loc
                (set_chp (set_entries (<[key := value]> (entries (chp w)))
                            (chp w)) w)
          | ValueError => (Raise SliceAssignError, w)
          end
      | None => restore_loop args rest loc w
      end.
Proof.
  cbn [restore_loop]. repeat case_decide; try done.
  unfold setitem. run. destruct (entries (chp w) !! key); [| done].
  by destruct (setslice _ _).
Qed.

(** The loop never binds a new name, never rebinds a parameter, and never
    adds or removes a key of the checkpoint. *)
Lemma restore_loop_inv args items loc w res w' :
  restore_loop args items loc w = (res, w') →
  loop_frame w w'
  ∧ match res with
    | Ok loc' => dom loc' = dom loc ∧ ∀ p, p ∈ args → loc' !! p = loc !! p
    | Raise _ => True
    end.
Proof.
  revert loc w. induction items as [|[key value] rest IH]; intros loc w.
  { simpl. run. intros [= <- <-]. split; [apply loop_frame_refl | done]. }
  rewrite restore_loop_cons.
  destruct (decide (key ∈ args)) as [Hargs | Hargs]; [apply IH |].
  destruct (decide (key ∈ dom loc)) as [Hloc | Hloc].
  { intros Hrun. destruct (IH _ _ Hrun) as [Hf Hres]. split; [done |].
    destruct res as [loc'|]; [| done]. destruct Hres as [Hdom Hparams]. split.
    - rewrite Hdom. apply dom_insert_lookup_L. by apply elem_of_dom.
    - intros p Hp. rewrite (Hparams p Hp), lookup_insert_ne; [done |].
      by intros ->. }
  destruct (entries (chp w) !! key) as [target|] eqn:Hkey; [| apply IH].
  destruct (setslice _ _) as [v' | |].
  - intros Hrun. destruct (IH _ _ Hrun) as [Hf Hres]. split; [| done].
    eapply loop_frame_trans; [apply loop_frame_objects | exact Hf].
  - intros Hrun. destruct (IH _ _ Hrun) as [Hf Hres]. split; [| done].
    eapply loop_frame_trans; [apply loop_frame_setitem | exact Hf].
    by rewrite Hkey.
  - intros [= <- <-]. split; [apply loop_frame_refl | done].
Qed.

(** A name that the snapshot does not mention keeps its binding. *)
Lemma restore_loop_other args items loc w loc' w' key :
  restore_loop args items loc w = (Ok loc', w') →
  key ∉ items.*1 → loc' !! key = loc !! key.
Proof.
  revert loc w. induction items as [|[k value] rest IH]; intros loc w.
  { simpl. run. by intros [= <- <-]. }
  rewrite restore_loop_cons, fmap_cons, not_elem_of_cons. simpl.
  intros Hrun [Hne Hrest]. revert Hrun.
  destruct (decide (k ∈ args)); [by eauto |].
  destruct (decide (k ∈ dom loc)).
  { intros Hrun. rewrite (IH _ _ Hrun Hrest). by apply lookup_insert_ne. }
  destruct (entries (chp w) !! k); [| by eauto].
  destruct (setslice _ _); by eauto.
Qed.

(** A name of the snapshot that is a local of the caller and not one of its
    parameters is bound to the object of the snapshot. *)
Lemma restore_loop_restored args items loc w loc' w' key r :
  NoDup items.*1 →
  restore_loop args items loc w = (Ok loc', w') →
  (key, r) ∈ items → key ∉ args → key ∈ dom loc →
  loc' !! key = Some r.
Proof.
  revert loc w. induction items as [|[k value] rest IH]; intros loc w Hnd.
  { intros _ Hin. by apply not_elem_of_nil in Hin. }
  rewrite fmap_cons in Hnd. apply NoDup_cons in Hnd as [Hk Hnd]. simpl in Hk.
  rewrite restore_loop_cons. intros Hrun Hin Hargs Hloc.
  apply elem_of_cons in Hin as [[= -> ->] | Hin].
  - rewrite decide_False, decide_True in Hrun by done.
    rewrite (restore_loop_other _ _ _ _ _ _ _ Hrun Hk).
    apply lookup_insert_eq.
  - revert Hrun. destruct (decide (k ∈ args)); [by eauto |].
    destruct (decide (k ∈ dom loc)).
    { intros Hrun. eapply IH; [done | exact Hrun | done | done |].
      rewrite dom_insert_lookup_L; [done | by apply elem_of_dom]. }
    destruct (entries (chp w) !! k); [| by eauto].
    destruct (setslice _ _); by eauto.
Qed.

(** The loop mutates only objects that the checkpoint holds under a key of
    the snapshot. *)
Lemma restore_loop_objects args items loc w res w' r :
  NoDup items.*1 →
  restore_loop args items loc w = (res, w') →
  (∀ k, k ∈ items.*1 → entries (chp w) !! k ≠ Some r) →
  objects w' !! r = objects w !! r.
Proof.
  revert loc w. induction items as [|[k value] rest IH]; intros loc w Hnd.
  { simpl. run. by intros [= <- <-]. }
  rewrite fmap_cons in Hnd. apply NoDup_cons in Hnd as [Hk Hnd]. simpl in Hk.
  rewrite restore_loop_cons, fmap_cons. simpl. intros Hrun Hr.
  assert (∀ k', k' ∈ rest.*1 → entries (chp w) !! k' ≠ Some r) as Hr'.
  { intros k' Hk'. apply Hr. by right. }
  revert Hrun. destruct (decide (k ∈ args)); [by eauto |].
  destruct (decide (k ∈ dom loc)); [by eauto |].
  destruct (entries (chp w) !! k) as [target|] eqn:Hkey; [| by eauto].
  assert (target ≠ r) as Hne.
  { intros ->. apply (Hr k); [left | done]. }
  destruct (setslice _ _) as [v' | |].
  - intros Hrun. rewrite (IH _ _ Hnd Hrun Hr'). simpl.
    by apply list_lookup_insert_ne.
  - intros Hrun. apply (IH _ _ Hnd Hrun). simpl. intros k' Hk'.
    rewrite lookup_insert_ne; [by apply Hr' |]. by intros ->.
  - by intros [= <- <-].
Qed.

(** [restore] in terms of its loop: the locals are written back and the
    loaded snapshot is dropped when the loop completes. *)
Lemma restore_run data w :
  restore data w
  = match restore_loop (calling_args (caller w))
            (map_to_list (update data (_cached (chp w))))
            (f_locals (caller w)) w with
    | (Ok loc', w1) =>
        (Ok tt, set_chp (set_cached ∅ (chp w1)) (set_locals loc' w1))
    | (Raise e, w1) => (Raise e, w1)
    end.
Proof. unfold restore. run. by destruct (restore_loop _ _ _ w) as [[] ?]. Qed.



(** A name of the loaded snapshot that the caller has bound before the call,
    and that is not one of its parameters, is bound to the loaded object
    when [restore] returns: the caller declares placeholders. *)
Lemma placeholder_receives w w' key r :
  _cached (chp w) !! key = Some r →
  key ∉ calling_args (caller w) →
  key ∈ dom (f_locals (caller w)) →
  restore ∅ w = (Ok tt, w') →
  f_locals (caller w') !! key = Some r.
Proof.
  intros Hkey Hargs Hloc. rewrite restore_run. unfold update.
  rewrite (right_id_L ∅ (∪)).
  destruct (restore_loop _ _ _ w) as [[loc'|] w1] eqn:Hrun; [| done].
  intros [= <-]. simpl.
  eapply restore_loop_restored;
    [apply NoDup_fst_map_to_list | exact Hrun | | done | done].
  by apply elem_of_map_to_list.
Qed.

(** C10. An entry of the loaded snapshot whose name is not a parameter, not
    a local of the caller and not a key of the checkpoint is dropped: its
    turn in the loop does nothing, after [restore] the name is bound neither
    in the caller's scope nor in the checkpoint, and the loaded snapshot is
    gone once [restore] has returned. *)
Theorem unknown_entry_discarded data w key :
  is_Some (_cached (chp w) !! key) →
  key ∉ calling_args (caller w) →
  key ∉ dom (f_locals (caller w)) →
  key ∉ dom (entries (chp w)) →
  (∀ value rest,
     restore_loop (calling_args (caller w)) ((key, value) :: rest)
       (f_locals (caller w)) w
     = restore_loop (calling_args (caller w)) rest (f_locals (caller w)) w)
  ∧ let w' := (restore data w).2 in
    (key ∉ dom (f_locals (caller w')))
    ∧ (key ∉ dom (entries (chp w')))
    ∧ ((restore data w).1 = Ok tt → _cached (chp w') = ∅).
Proof.
  intros _ Hargs Hloc Hkey. split.
  - intros value rest. rewrite restore_loop_cons.
    rewrite !decide_False by done.
    apply not_elem_of_dom in Hkey. by rewrite Hkey.
  - intros w'. subst w'. rewrite restore_run.
    destruct (restore_loop _ _ _ w) as [res w1] eqn:Hrun.
    destruct (restore_loop_inv _ _ _ _ _ _ Hrun) as [Hf Hres].
    destruct Hf as (Hcaller & _ & _ & _ & _ & _ & _ & _ & Hdom & _).
    destruct res as [loc'|]; simpl.
    + destruct Hres as [Hdomloc _]. by rewrite Hdomloc, Hdom.
    + by rewrite Hcaller, Hdom.
Qed.

Lemma unknown_entry_discarded_witness :
  ("extra" ∉ dom (f_locals (caller (restore ∅ resumed_more).2)))
  ∧ ("extra" ∉ dom (entries (chp (restore ∅ resumed_more).2)))
  ∧ ((restore ∅ resumed_more).1 = Ok tt
     → _cached (chp (restore ∅ resumed_more).2) = ∅).
Proof.
  apply (unknown_entry_discarded ∅ resumed_more "extra").
  - vm_compute. by eexists.
  - change ("extra" ∉ ["n"]).
    apply not_elem_of_cons. split; [discriminate | apply not_elem_of_nil].
  - apply not_elem_of_dom. vm_compute. reflexivity.
  - apply not_elem_of_dom. vm_compute. reflexivity.
Defined.

(* ===================================================================== *)
(** ** Round trip *)
(* ===================================================================== *)



Lemma deref_insert (h : list pyval) target v r :
  deref (<[target := v]> h) r
  = if decide (r = target ∧ (target < length h)%nat) then v else deref h r.
Proof.
  unfold deref. case_decide as H.
  - destruct H as [-> H]. by apply list_lookup_total_insert_eq.
  - destruct (decide (target < length h)%nat).
    + apply list_lookup_total_insert_ne. intros ->. tauto.
    + rewrite list_insert_ge; [done | lia].
Qed.






(* ===================================================================== *)
(** ** The tests of the repository *)
(* ===================================================================== *)

(** [assert foo == 'bar'] *)
Example test_checkpoint :
  (test_checkpoint_body test_start).1 = Ok tt
  ∧ value_of (test_checkpoint_body test_start).2 "foo" = Some (PyStr "bar").
Proof. split; by vm_compute. Qed.

(** [assert np.allclose(seq_1, seq_2)] and [assert foo == bar] *)
Example test_radom_seed :
  ∃ seq foo, (test_radom_seed_body test_start).1 = Ok [seq; foo; seq; foo]
             ∧ seq ≠ foo.
Proof. eexists _, _. split; [by vm_compute | done]. Qed.

(* ===================================================================== *)
(** ** More on the filter and the whitelist *)
(* ===================================================================== *)

Lemma isinstance_true v types :
  isinstance v types = true ↔ ∃ t, t ∈ types ∧ t ∈ mro v.
Proof.
  unfold isinstance. rewrite existsb_exists. split.
  - intros (t & Hin & Ht). exists t. split; [by apply list_elem_of_In |].
    by apply bool_decide_eq_true in Ht.
  - intros (t & Hin & Ht). exists t. split; [by apply list_elem_of_In |].
    by apply bool_decide_eq_true.
Qed.

(** X1. [must_save] on every name: it accepts exactly when the name does
    not begin with an underscore, does not end with an underscore, does not
    end with an underscore followed by a newline, the value has no
    [__dict__], and the value is an instance of a type of the whitelist. *)
Theorem must_save_exact attrs key value :
  must_save attrs key value = true ↔
  leading key ≠ Some underscore
  ∧ trailing key ≠ Some underscore
  ∧ (∀ p, list_ascii_of_string key ≠ p ++ [underscore; newline])
  ∧ hasattr_dict value = false
  ∧ ∃ t, t ∈ ALLOWED_TYPES attrs ∧ t ∈ mro value.
Proof.
  rewrite must_save_true, <- isinstance_true, <- not_true_iff_false.
  rewrite reg_exclude_iff. split.
  - intros (Hn & Hd & Hi). split_and!; try done.
    + intros H. apply Hn. by left.
    + intros H. apply Hn. right. by left.
    + intros p H. apply Hn. right. right. by exists p.
  - intros (Hl & Ht & Hp & Hd & Hi). split_and!; try done.
    intros [H | [H | [p H]]]; [done | done | by apply (Hp p)].
Qed.

(** X2. [add_types] makes the whitelist the set of the old and the new
    types, without duplicates, and leaves the expiration window alone;
    everything that was accepted stays accepted, and a value is accepted
    afterwards exactly when its name passes the pattern, it has no
    [__dict__], and it is an instance of an old or of a new type. So
    registering a class whose instances have a [__dict__] changes nothing
    for them. *)
Theorem add_types_widens new attrs :
  (∀ t, t ∈ ALLOWED_TYPES (add_types new attrs)
        ↔ t ∈ ALLOWED_TYPES attrs ∨ t ∈ new)
  ∧ NoDup (ALLOWED_TYPES (add_types new attrs))
  ∧ CACHE_EXPIRE (add_types new attrs) = CACHE_EXPIRE attrs
  ∧ (∀ key v, must_save attrs key v = true →
              must_save (add_types new attrs) key v = true)
  ∧ (∀ key v, must_save (add_types new attrs) key v = true
              ↔ reg_exclude key = false ∧ hasattr_dict v = false
                ∧ (isinstance v (ALLOWED_TYPES attrs) = true
                   ∨ isinstance v new = true)).
Proof.
  assert (∀ t, t ∈ ALLOWED_TYPES (add_types new attrs)
               ↔ t ∈ ALLOWED_TYPES attrs ∨ t ∈ new) as Hmem.
  { intros t. simpl. by rewrite elem_of_remove_dups, elem_of_app. }
  assert (∀ v, isinstance v (ALLOWED_TYPES (add_types new attrs)) = true
               ↔ isinstance v (ALLOWED_TYPES attrs) = true
                 ∨ isinstance v new = true) as Hinst.
  { intros v. rewrite !isinstance_true. split.
    - intros (t & [Ht | Ht]%Hmem & Hm); [left | right]; by exists t.
    - intros [(t & Ht & Hm) | (t & Ht & Hm)]; exists t;
        (split; [apply Hmem; tauto | done]). }
  split_and!; [done | apply NoDup_remove_dups | done | |].
  - intros key v. rewrite !must_save_true, Hinst. tauto.
  - intros key v. by rewrite must_save_true, Hinst.
Qed.

(* ===================================================================== *)
(** ** More on saving and loading *)
(* ===================================================================== *)



(** X4. [save] is a full overwrite that leaves the running state alone: it
    changes no object, no local, no entry of the checkpoint and not the
    generator, and what a later [save] stores is what it would have stored
    without the earlier one. Keyword data of one call are not remembered by
    the next. *)
Theorem save_overwrites data1 data2 w :
  let w1 := (save data1 w).2 in
  objects w1 = objects w ∧ caller w1 = caller w
  ∧ entries (chp w1) = entries (chp w) ∧ _cached (chp w1) = _cached (chp w)
  ∧ random_state w1 = random_state w
  ∧ persisted (save data2 w1).2 (filename (chp w))
    = persisted (save data2 w).2 (filename (chp w)).
Proof.
  intros w1. subst w1.
  destruct (save_run data1 w) as (d1 & Hd1 & Hrun1). simpl in Hrun1.
  rewrite Hrun1. cbn [snd]. split_and!; try done.
  match goal with
  | |- context [save data2 ?x] =>
      destruct (save_run data2 x) as (d2 & Hd2 & Hrun2)
  end.
  destruct (save_run data2 w) as (d & Hd & Hrun).
  cbv zeta in Hrun2, Hrun. rewrite Hrun2, Hrun. unfold persisted. simpl.
  rewrite !lookup_insert_eq.
  assert (d2 = d) as ->; [| done].
  unfold context in Hd2, Hd. revert Hd2 Hd. run. by intros [= <-] [= <-].
Qed.

Lemma load_objects clean w : objects w `prefix_of` objects (_load clean w).2.
Proof.
  unfold _load, time_time. run.
  destruct (files w !! filename (chp w)) as [f|]; [| done].
  destruct clean; [done |]. simpl. case_decide; [done |].
  destruct (data f) as [s|].
  - destruct (pickle_load_Pickled (filename (chp w)) s
                (set_ticks (S (ticks w)) w)) as (d & Hrun & _).
    simpl in Hrun. rewrite Hrun. simpl. by apply prefix_app_r.
  - unfold pickle_load. run. done.
Qed.

(** X5. [_load] reads and nothing else: it leaves the files, the checkpoint
    object, the caller and the generator as they are, writes nothing, and
    only adds objects to the store. *)
Theorem load_touches_nothing clean w :
  let w' := (_load clean w).2 in
  files w' = files w ∧ chp w' = chp w ∧ caller w' = caller w
  ∧ random_state w' = random_state w ∧ writes w' = writes w
  ∧ objects w `prefix_of` objects w'.
Proof.
  intros w'. subst w'.
  destruct (_load clean w) as [res w'] eqn:Hrun.
  destruct (load_frame _ _ _ _ Hrun) as (? & ? & ? & ? & ? & _).
  split_and!; try done.
  replace w' with (_load clean w).2 by by rewrite Hrun.
  apply load_objects.
Qed.



(* ===================================================================== *)
(** ** More on construction *)
(* ===================================================================== *)

Lemma init_unfold path clean rate w :
  __init__ path clean rate w
  = match _load clean (set_chp (blank path rate) w) with
    | (Ok cached, w1) =>
        _recover_internal_status ∅ (set_chp (set_cached cached (chp w1)) w1)
    | (Raise e, w1) => (Raise e, w1)
    end.
Proof.
  unfold __init__. run.
  by destruct (_load clean (set_chp (blank path rate) w)) as [[] ?].
Qed.

Lemma recover_restore w seed :
  get_not_None (objects w) (_cached (chp w)) NUMPY_RAND_SEED = Some seed →
  _recover_internal_status ∅ w
  = (Ok tt,
     set_chp (set_entries (<[NUMPY_RAND_SEED := seed]> (entries (chp w))) (chp w))
       (set_random_state (deref (objects w) seed) w)).
Proof.
  intros H. unfold _recover_internal_status, update. run.
  rewrite (right_id_L ∅ (∪)), H.
  unfold np_random_set_state, setitem. run. done.
Qed.

Lemma recover_seed w :
  get_not_None (objects w) (_cached (chp w)) NUMPY_RAND_SEED = None →
  _recover_internal_status ∅ w
  = save ∅
      (set_chp
         (set_entries (<[NUMPY_RAND_SEED := length (objects w)]> (entries (chp w)))
            (chp w))
         (set_objects (objects w ++ [random_state w]) w)).
Proof.
  intros H. unfold _recover_internal_status, update. run.
  rewrite (right_id_L ∅ (∪)), H.
  unfold np_random_get_state, new_object, setitem, alloc. run. done.
Qed.

Lemma deref_app_new (h : list pyval) v : deref (h ++ [v]) (length h) = v.
Proof.
  unfold deref. apply list_lookup_total_correct.
  by rewrite lookup_app_r, Nat.sub_diag by lia.
Qed.



(** Every outcome of the constructor, by cases on what [_load] returns. *)
Lemma init_outcome path clean rate w w' :
  __init__ path clean rate w = (Ok tt, w') →
  ∃ seed, entries (chp w') = {[ NUMPY_RAND_SEED := seed ]}
          ∧ deref (objects w') seed = random_state w'
          ∧ filename (chp w') = path ∧ World.rate (chp w') = rate
          ∧ caller w' = caller w.
Proof.
  rewrite init_unfold.
  destruct (_load clean _) as [[cached|e] w1] eqn:Hload; [| done].
  destruct (load_frame _ _ _ _ Hload) as (Hchp & Hcaller & _).
  simpl in Hchp, Hcaller.
  set (w2 := set_chp _ w1).
  destruct (get_not_None (objects w2) (_cached (chp w2)) NUMPY_RAND_SEED)
    as [seed|] eqn:Hseed.
  - rewrite (recover_restore w2 seed Hseed). intros [= <-]. exists seed.
    simpl. rewrite Hchp. simpl. by rewrite insert_empty.
  - rewrite (recover_seed w2 Hseed).
    match goal with |- context [save ∅ ?x] =>
      destruct (save_effect ∅ x) as (w3 & -> & _ & Hc & Ho & Hca & Hr & _)
    end.
    intros [= <-]. exists (length (objects w1)).
    rewrite Hc, Ho, Hca, Hr. simpl. rewrite Hchp. simpl.
    rewrite insert_empty. split_and!; try done. apply deref_app_new.
Qed.

(** X7. Whenever the constructor returns, the checkpoint holds exactly one
    entry, under [NUMPY_RAND_SEED], and the state of the generator is the
    content of that entry; the path and the rate are the ones given, and
    the caller's frame is as it was. *)
Theorem constructor_seed_invariant path clean rate w w' :
  __init__ path clean rate w = (Ok tt, w') →
  ∃ seed, entries (chp w') = {[ NUMPY_RAND_SEED := seed ]}
          ∧ deref (objects w') seed = random_state w'
          ∧ filename (chp w') = path ∧ World.rate (chp w') = rate
          ∧ caller w' = caller w.
Proof. apply init_outcome. Qed.

Lemma constructor_seed_invariant_witness :
  ∃ seed, entries (chp resumed) = {[ NUMPY_RAND_SEED := seed ]}
          ∧ deref (objects resumed) seed = random_state resumed
          ∧ filename (chp resumed) = work_path
          ∧ World.rate (chp resumed) = 30
          ∧ caller resumed = caller second_run.
Proof.
  apply (constructor_seed_invariant work_path false 30 second_run resumed).
  by vm_compute.
Defined.












(* ===================================================================== *)
(** ** More on restoring *)
(* ===================================================================== *)



Lemma restore_done_id w :
  _cached (chp w) = ∅ →
  set_chp (set_cached ∅ (chp w)) (set_locals (f_locals (caller w)) w) = w.
Proof.
  destruct w as [? [] [] ? ? ? ? ? ?]. simpl. by intros ->.
Qed.



(** A key that the snapshot does not mention keeps its binding in the
    checkpoint. *)
Lemma restore_loop_entries_other args items loc w res w' key :
  restore_loop args items loc w = (res, w') →
  key ∉ items.*1 → entries (chp w') !! key = entries (chp w) !! key.
Proof.
  revert loc w. induction items as [|[k value] rest IH]; intros loc w.
  { simpl. run. by intros [= <- <-]. }
  rewrite restore_loop_cons, fmap_cons, not_elem_of_cons. simpl.
  intros Hrun [Hne Hrest]. revert Hrun.
  destruct (decide (k ∈ args)); [by eauto |].
  destruct (decide (k ∈ dom loc)); [by eauto |].
  destruct (entries (chp w) !! k); [| by eauto].
  destruct (setslice _ _).
  - intros Hrun. by rewrite (IH _ _ Hrun Hrest).
  - intros Hrun. rewrite (IH _ _ Hrun Hrest). simpl.
    by apply lookup_insert_ne.
  - by intros [= <- <-].
Qed.





(** X14. The keyword arguments of [restore] are defaults: when [restore]
    returns, a local of the caller that is not a parameter is bound to the
    object of the loaded snapshot if the snapshot names it, else to the
    keyword argument of that name if there is one, and is left alone
    otherwise. *)
Theorem restore_keywords_are_defaults data w w' x :
  restore data w = (Ok tt, w') →
  x ∉ calling_args (caller w) →
  x ∈ dom (f_locals (caller w)) →
  f_locals (caller w') !! x
  = match _cached (chp w) !! x with
    | Some r => Some r
    | None =>
        match data !! x with
        | Some r => Some r
        | None => f_locals (caller w) !! x
        end
    end.
Proof.
  rewrite restore_run. unfold update.
  destruct (restore_loop _ _ _ w) as [[loc'|] w0] eqn:Hloop; [| done].
  intros [= <-] Hargs Hloc. simpl.
  destruct ((_cached (chp w) ∪ data) !! x) as [r|] eqn:Hx.
  - rewrite (restore_loop_restored _ _ _ _ _ _ x r
               (NoDup_fst_map_to_list _) Hloop);
      [| by apply elem_of_map_to_list | done | done].
    rewrite lookup_union in Hx.
    by destruct (_cached (chp w) !! x), (data !! x).
  - rewrite (restore_loop_other _ _ _ _ _ _ x Hloop).
    + apply lookup_union_None in Hx as [-> ->]. done.
    + intros ([k r] & -> & Hin%elem_of_map_to_list)%list_elem_of_fmap.
      simpl in Hx. congruence.
Qed.

Lemma restore_keywords_are_defaults_witness :
  f_locals (caller (restore {[ "foo" := 1%nat; "n" := 0%nat ]} first_run).2)
    !! "foo"
  = Some 1%nat.
Proof.
  rewrite (restore_keywords_are_defaults {[ "foo" := 1%nat; "n" := 0%nat ]}
             first_run _ "foo").
  - by vm_compute.
  - by vm_compute.
  - change ("foo" ∉ ["n"]).
    apply not_elem_of_cons. split; [discriminate | apply not_elem_of_nil].
  - apply elem_of_dom. vm_compute. by eexists.
Defined.

(** X15. [restore] does no input or output and keeps the shape of the
    state: whether it returns or raises, the files, the log, the clock, the
    generator and the class attributes are as they were, the caller has the
    same names and the same parameters, the checkpoint has the same keys,
    path, rate and time of last save, and the store has as many objects. *)
Theorem restore_keeps_shape data w :
  let w' := (restore data w).2 in
  files w' = files w ∧ io_log w' = io_log w ∧ ticks w' = ticks w
  ∧ random_state w' = random_state w ∧ cls w' = cls w
  ∧ dom (f_locals (caller w')) = dom (f_locals (caller w))
  ∧ calling_args (caller w') = calling_args (caller w)
  ∧ dom (entries (chp w')) = dom (entries (chp w))
  ∧ filename (chp w') = filename (chp w)
  ∧ World.rate (chp w') = World.rate (chp w)
  ∧ modified (chp w') = modified (chp w)
  ∧ length (objects w') = length (objects w).
Proof.
  intros w'. subst w'. rewrite restore_run.
  destruct (restore_loop _ _ _ w) as [res w0] eqn:Hloop.
  destruct (restore_loop_inv _ _ _ _ _ _ Hloop) as [Hf Hres].
  destruct Hf as (Hca & Hfi & _ & Hti & Hra & Hio & Hcl & Hlen & Hdom & Hchp).
  assert (filename (chp w0) = filename (chp w)
          ∧ World.rate (chp w0) = World.rate (chp w)
          ∧ modified (chp w0) = modified (chp w)) as (Hn & Hr & Hm).
  { split_and!.
    - apply (f_equal filename) in Hchp. done.
    - apply (f_equal World.rate) in Hchp. done.
    - apply (f_equal modified) in Hchp. done. }
  destruct res as [loc'|]; simpl.
  - destruct Hres as [Hdl _]. rewrite Hca. by split_and!.
  - rewrite Hca. by split_and!.
Qed.

(** The loop on a list that the checkpoint holds. *)
Lemma restore_loop_in_place args items loc w loc' w' key target r old new :
  NoDup items.*1 →
  restore_loop args items loc w = (Ok loc', w') →
  (key, r) ∈ items → key ∉ args → key ∉ dom loc →
  entries (chp w) !! key = Some target →
  objects w !! target = Some (PyList old) →
  iterate (deref (objects w) r) = Some new →
  (∀ k, k ∈ items.*1 → k ≠ key → entries (chp w) !! k ≠ Some target) →
  (∀ k, k ∈ items.*1 → entries (chp w) !! k ≠ Some r) →
  entries (chp w') !! key = Some target
  ∧ objects w' !! target = Some (PyList new).
Proof.
  revert loc w. induction items as [|[k v] rest IH];
    intros loc w Hnd Hrun Hin Hargs Hloc Hkey Htarget Hnew Hother Hr.
  { by apply not_elem_of_nil in Hin. }
  rewrite fmap_cons in Hnd. apply NoDup_cons in Hnd as [Hk Hnd]. simpl in Hk.
  rewrite restore_loop_cons in Hrun.
  assert (∀ k', k' ∈ rest.*1 → k' ≠ key →
                entries (chp w) !! k' ≠ Some target) as Hother'.
  { intros k' Hk'. apply Hother. rewrite fmap_cons. by right. }
  assert (∀ k', k' ∈ rest.*1 → entries (chp w) !! k' ≠ Some r) as Hr'.
  { intros k' Hk'. apply Hr. rewrite fmap_cons. by right. }
  apply elem_of_cons in Hin as [[= <- <-] | Hin].
  - (* the turn of [key] *)
    rewrite decide_False, decide_False, Hkey in Hrun by done.
    unfold deref in Hrun at 1.
    rewrite (list_lookup_total_correct _ _ _ Htarget) in Hrun.
    simpl in Hrun. rewrite Hnew in Hrun. split.
    + by rewrite (restore_loop_entries_other _ _ _ _ _ _ key Hrun Hk).
    + rewrite (restore_loop_objects _ _ _ _ _ _ target Hnd Hrun).
      * simpl. apply list_lookup_insert_eq. by apply lookup_lt_Some in Htarget.
      * simpl. intros k' Hk'. apply Hother'; [done |]. by intros ->.
  - (* another key *)
    assert (k ≠ key) as Hne.
    { intros ->. apply Hk. apply list_elem_of_fmap. by exists (key, r). }
    revert Hrun. destruct (decide (k ∈ args)); [by eauto |].
    destruct (decide (k ∈ dom loc)) as [Hkl | Hkl].
    { intros Hrun. eapply IH; try done.
      rewrite dom_insert_lookup_L; [done | by apply elem_of_dom]. }
    destruct (entries (chp w) !! k) as [t|] eqn:Hkt; [| by eauto].
    assert (t ≠ target) as Ht.
    { intros ->. apply (Hother k); [rewrite fmap_cons; left | done | done]. }
    assert (t ≠ r) as Htr.
    { intros ->. apply (Hr k); [rewrite fmap_cons; left | done]. }
    destruct (setslice _ _) as [v' | |].
    + intros Hrun. eapply IH; try done; simpl.
      * by rewrite list_lookup_insert_ne.
      * rewrite deref_insert, decide_False; [done | ]. intros [? _]. done.
    + intros Hrun. eapply IH; try done; simpl.
      * by rewrite lookup_insert_ne.
      * intros k' Hk' Hk'ne. rewrite lookup_insert_ne; [by apply Hother' |].
        by intros ->.
      * intros k' Hk'. rewrite lookup_insert_ne; [by apply Hr' |].
        by intros ->.
    + done.
Qed.

(** X16. A list that the checkpoint holds is restored in place: when
    [restore] returns, a key of the checkpoint that is neither a local nor
    a parameter of the caller is still bound to the same list object, and
    the items of that object are those of the loaded value, so that every
    other reference to the list sees them. The list is held under that key
    only, and the loaded object is not itself held by the checkpoint. *)
Theorem restore_updates_in_place data w w' key target r old new :
  restore data w = (Ok tt, w') →
  key ∉ calling_args (caller w) →
  key ∉ dom (f_locals (caller w)) →
  entries (chp w) !! key = Some target →
  objects w !! target = Some (PyList old) →
  update data (_cached (chp w)) !! key = Some r →
  iterate (deref (objects w) r) = Some new →
  (∀ k, k ≠ key → entries (chp w) !! k ≠ Some target) →
  (∀ k, entries (chp w) !! k ≠ Some r) →
  entries (chp w') !! key = Some target
  ∧ objects w' !! target = Some (PyList new).
Proof.
  rewrite restore_run.
  destruct (restore_loop _ _ _ w) as [[loc'|] w0] eqn:Hloop; [| done].
  intros [= <-] Hargs Hloc Hkey Htarget Hr Hnew Hother Hheld. simpl.
  eapply (restore_loop_in_place _ _ _ _ _ _ key target r old new
            (NoDup_fst_map_to_list _) Hloop);
    [by apply elem_of_map_to_list | done .. | |].
  - intros k _. apply Hother.
  - intros k _. apply Hheld.
Qed.

Lemma restore_updates_in_place_witness :
  value_of holding_list "alias" = Some (PyList [PyInt 1])
  ∧ entries (chp (restore ∅ holding_list).2) !! "best" = Some 0%nat
  ∧ value_of (restore ∅ holding_list).2 "alias"
    = Some (PyList [PyInt 1; PyInt 2; PyInt 3]).
Proof.
  split; [by vm_compute |].
  destruct (restore_updates_in_place ∅ holding_list (restore ∅ holding_list).2
              "best" 0%nat 1%nat [PyInt 1] [PyInt 1; PyInt 2; PyInt 3])
    as [Hentry Hobj].
  - by vm_compute.
  - apply not_elem_of_nil.
  - apply not_elem_of_dom. by vm_compute.
  - by vm_compute.
  - reflexivity.
  - by vm_compute.
  - reflexivity.
  - intros k Hk. change (entries (chp holding_list)) with
      ({[ "best" := 0%nat ]} : gmap string nat).
    by rewrite lookup_singleton_ne.
  - intros k. change (entries (chp holding_list)) with
      ({[ "best" := 0%nat ]} : gmap string nat).
    intros [_ [=]]%lookup_singleton_Some.
  - split; [done |]. unfold value_of.
    change (f_locals (caller (restore ∅ holding_list).2) !! "alias")
      with (Some 0%nat).
    simpl. unfold deref. by rewrite (list_lookup_total_correct _ _ _ Hobj).
Defined.

(* ===================================================================== *)
(** ** Locating the file *)
(* ===================================================================== *)

Lemma find_in_spec regexp root files :
  match find_in regexp root files with
  | None => ∀ name, name ∈ files → re_search no_flags regexp name = false
  | Some path =>
      ∃ seen name later,
        files = seen ++ name :: later
        ∧ path = os_path_join root name
        ∧ re_search no_flags regexp name = true
        ∧ ∀ name', name' ∈ seen → re_search no_flags regexp name' = false
  end.
Proof.
  induction files as [|name rest IH]; simpl.
  { intros name Hin. by apply not_elem_of_nil in Hin. }
  destruct (re_search no_flags regexp name) eqn:Hname.
  - exists [], name, rest. split_and!; try done.
    intros name' Hin. by apply not_elem_of_nil in Hin.
  - destruct (find_in regexp root rest) as [path|].
    + destruct IH as (seen & name' & later & -> & -> & Hm & Hseen).
      exists (name :: seen), name', later. split_and!; try done.
      intros n [-> | Hin]%elem_of_cons; [done | by apply Hseen].
    + intros n [-> | Hin]%elem_of_cons; [done | by apply IH].
Qed.

Lemma find_loop_spec regexp walk :
  match find_loop regexp walk with
  | None =>
      ∀ root files name,
        (root, files) ∈ walk → name ∈ files →
        re_search no_flags regexp name = false
  | Some path =>
      ∃ before root files after seen name later,
        walk = before ++ (root, files) :: after
        ∧ files = seen ++ name :: later
        ∧ path = os_path_join root name
        ∧ re_search no_flags regexp name = true
        ∧ (∀ name', name' ∈ seen → re_search no_flags regexp name' = false)
        ∧ ∀ root' files' name',
            (root', files') ∈ before → name' ∈ files' →
            re_search no_flags regexp name' = false
  end.
Proof.
  induction walk as [|[root files] rest IH]; simpl.
  { intros root files name Hin. by apply not_elem_of_nil in Hin. }
  pose proof (find_in_spec regexp root files) as Hin.
  destruct (find_in regexp root files) as [path|].
  - destruct Hin as (seen & name & later & -> & -> & Hm & Hseen).
    exists [], root, (seen ++ name :: later), rest, seen, name, later.
    split_and!; try done.
    intros root' files' name' H. by apply not_elem_of_nil in H.
  - destruct (find_loop regexp rest) as [path|].
    + destruct IH as (before & root' & files' & after & seen & name & later
                      & -> & -> & -> & Hm & Hseen & Hbefore).
      exists ((root, files) :: before), root', (seen ++ name :: later), after,
        seen, name, later.
      split_and!; try done.
      intros r fs n [[= -> ->] | H]%elem_of_cons Hn; [by apply Hin |].
      by eapply Hbefore.
    + intros r fs n [[= -> ->] | H]%elem_of_cons Hn; [by apply Hin |].
      by eapply IH.
Qed.

(** X17. [find] returns the path of the first file, in the order of the
    walk (a directory before its subdirectories, the files of a directory in
    the order of the listing), whose name the pattern matches somewhere; it
    returns nothing exactly when the pattern matches no file name under the
    current directory. *)
Theorem find_first_match regexp cwd :
  match find regexp cwd with
  | None =>
      ∀ root files name,
        (root, files) ∈ os_walk "." cwd → name ∈ files →
        re_search no_flags regexp name = false
  | Some path =>
      ∃ before root files after seen name later,
        os_walk "." cwd = before ++ (root, files) :: after
        ∧ files = seen ++ name :: later
        ∧ path = os_path_join root name
        ∧ re_search no_flags regexp name = true
        ∧ (∀ name', name' ∈ seen → re_search no_flags regexp name' = false)
        ∧ ∀ root' files' name',
            (root', files') ∈ before → name' ∈ files' →
            re_search no_flags regexp name' = false
  end.
Proof. apply find_loop_spec. Qed.

(** X18. The walk is top down: when the pattern matches the name of a file
    of the current directory itself, [find] returns a file of the current
    directory, whatever its subdirectories hold. *)
Theorem find_prefers_top regexp files dirs name :
  name ∈ files → re_search no_flags regexp name = true →
  ∃ name', name' ∈ files
           ∧ re_search no_flags regexp name' = true
           ∧ find regexp (Dir files dirs) = Some (os_path_join "." name').
Proof.
  intros Hin Hm. unfold find. cbn [os_walk find_loop].
  pose proof (find_in_spec regexp "." files) as Hspec.
  destruct (find_in regexp "." files) as [path|].
  - destruct Hspec as (seen & name' & later & -> & -> & Hm' & _).
    exists name'. split_and!; [| done | done].
    apply elem_of_app. right. left.
  - rewrite (Hspec name Hin) in Hm. done.
Qed.

Lemma find_prefers_top_witness :
  ∃ name', name' ∈ ["readme"; "b.pzip.bak"]
           ∧ re_search no_flags pattern_b_pzip name' = true
           ∧ find pattern_b_pzip project_dir = Some (os_path_join "." name').
Proof.
  apply (find_prefers_top pattern_b_pzip ["readme"; "b.pzip.bak"] _ "b.pzip.bak").
  - right. left.
  - by vm_compute.
Defined.

(** One character of a pattern of the fragment against one character. *)
Lemma ends_atom c a s i :
  atom c = Some a →
  ends no_flags a s i
  = match s !! i with
    | Some d => if fits [c] [d] then [S i] else []
    | None => []
    end.
Proof.
  unfold atom. case_bool_decide as Hdot.
  - intros [= <-]. subst c. simpl. destruct (s !! i); [| done].
    simpl. by rewrite andb_true_r.
  - destruct (special c); [done |]. intros [= <-]. simpl.
    destruct (s !! i) as [d|]; [| done]. unfold lit_eq. simpl.
    by rewrite (bool_decide_eq_false_2 _ Hdot), andb_true_r.
Qed.

Lemma fits_cons c pat d sub :
  fits (c :: pat) (d :: sub) = fits [c] [d] && fits pat sub.
Proof. cbn [fits]. by rewrite andb_true_r. Qed.

(** A compiled pattern matches at a position exactly the text of its own
    length that fits it. *)
Lemma ends_compiled pat r s i :
  compile_chars pat = Some r →
  ends no_flags r s i
  = if fits pat (take (length pat) (drop i s)) then [i + length pat]%nat
    else [].
Proof.
  revert r i. induction pat as [|c rest IH]; intros r i; [done |].
  destruct rest as [|c' rest'].
  - cbn [compile_chars]. intros Ha. rewrite (ends_atom c r s i Ha).
    destruct (s !! i) as [d|] eqn:Hd.
    + rewrite (drop_S s d i Hd). cbn [length take]. rewrite take_0.
      by rewrite Nat.add_1_r.
    + rewrite drop_ge by by apply lookup_ge_None. done.
  - change (compile_chars (c :: c' :: rest'))
      with (a ← atom c; r ← compile_chars (c' :: rest'); Some (Seq a r)).
    destruct (atom c) as [a|] eqn:Ha; cbn [mbind option_bind]; [| done].
    destruct (compile_chars (c' :: rest')) as [r'|] eqn:Hr;
      cbn [mbind option_bind]; [| done].
    intros [= <-]. cbn [ends]. rewrite (ends_atom c a s i Ha).
    destruct (s !! i) as [d|] eqn:Hd.
    + rewrite (drop_S s d i Hd).
      change (take (length (c :: c' :: rest')) (d :: drop (S i) s))
        with (d :: take (length (c' :: rest')) (drop (S i) s)).
      rewrite (fits_cons c (c' :: rest')). destruct (fits [c] [d]); [| done].
      simpl. rewrite app_nil_r, (IH r' (S i) eq_refl). simpl.
      by rewrite (Nat.add_succ_r i (S (length rest'))).
    + rewrite drop_ge by by apply lookup_ge_None. done.
Qed.

Lemma fits_length pat sub : fits pat sub = true → length sub = length pat.
Proof.
  revert sub. induction pat as [|c pat IH]; intros [|d sub]; simpl; try done.
  intros [_ H]%andb_true_iff. by rewrite (IH sub H).
Qed.

Lemma fits_refl pat : fits pat pat = true.
Proof.
  induction pat as [|c pat IH]; [done |]. simpl. rewrite IH, andb_true_r.
  case_bool_decide as Hdot; [| by apply bool_decide_eq_true].
  subst c. done.
Qed.

Lemma search_compiled pat r name :
  compile_chars pat = Some r →
  re_search no_flags r name = true
  ↔ ∃ pre sub suf,
      list_ascii_of_string name = pre ++ sub ++ suf ∧ fits pat sub = true.
Proof.
  intros Hr. unfold re_search. set (s := list_ascii_of_string name).
  rewrite existsb_exists. split.
  - intros (i & _ & Hi). apply bool_decide_eq_true in Hi.
    rewrite (ends_compiled pat r s i Hr) in Hi.
    destruct (fits pat (take (length pat) (drop i s))) eqn:Hfit; [| done].
    exists (take i s), (take (length pat) (drop i s)),
      (drop (length pat) (drop i s)).
    by rewrite !take_drop.
  - intros (pre & sub & suf & Hs & Hfit). exists (length pre). split.
    + apply in_seq. rewrite Hs, length_app. lia.
    + apply bool_decide_eq_true.
      rewrite (ends_compiled pat r s (length pre) Hr), Hs.
      rewrite drop_app_length, <- (fits_length _ _ Hfit), take_app_length.
      by rewrite Hfit.
Qed.

(** X19. What the search for a file name accepts. For a pattern made of
    ordinary characters and dots, [regexp.search(name)] succeeds exactly
    when the name contains a text of the length of the pattern that agrees
    with it on every character but the dots, where it has any character but
    a newline. In particular it succeeds on every name that contains the
    pattern itself. *)
Theorem search_file_name pattern regexp name :
  re_compile pattern = Some regexp →
  (re_search no_flags regexp name = true
   ↔ ∃ pre sub suf,
       list_ascii_of_string name = pre ++ sub ++ suf
       ∧ fits (list_ascii_of_string pattern) sub = true)
  ∧ (∀ pre suf,
       list_ascii_of_string name
       = pre ++ list_ascii_of_string pattern ++ suf →
       re_search no_flags regexp name = true).
Proof.
  intros Hr. split; [by apply search_compiled |].
  intros pre suf Hname. apply (search_compiled _ _ _ Hr).
  exists pre, (list_ascii_of_string pattern), suf. split; [done |].
  apply fits_refl.
Qed.

Lemma search_file_name_witness :
  re_search no_flags pattern_b_pzip "b.pzip.bak" = true.
Proof.
  apply (proj2 (search_file_name "b.pzip" pattern_b_pzip "b.pzip.bak"
                 eq_refl) [] (list_ascii_of_string ".bak")).
  reflexivity.
Defined.

(* ===================================================================== *)
(** ** The file of a checkpoint *)
(* ===================================================================== *)
















(* ===================================================================== *)
(** ** A loop of [sync] *)
(* ===================================================================== *)

Lemma syncs_step n w :
  syncs (S n) w
  = match sync w with
    | (Ok _, w') => syncs n w'
    | (Raise e, w') => (Raise e, w')
    end.
Proof. reflexivity. Qed.

Lemma syncs_writes n :
  ∀ w, ∃ w', syncs n w = (Ok tt, w') ∧ (writes w ≤ writes w')%nat.
Proof.
  induction n as [|n IH]; intros w; [by exists w |].
  rewrite syncs_step. destruct (decide (gate_open w)) as [Hg | Hg].
  - destruct (sync_open w Hg) as (w1 & -> & Hw & _).
    destruct (IH w1) as (w' & Hrun & Hle). exists w'. split; [done | lia].
  - rewrite (sync_closed w Hg).
    destruct (IH (set_ticks (S (ticks w)) w)) as (w' & Hrun & Hle).
    exists w'. split; [done |]. by change (writes w ≤ writes w')%nat in Hle.
Qed.

Lemma syncs_closed n :
  ∀ w,
    (∀ i : nat, (i < n)%nat →
       clock w (ticks w + i)%nat - modified (chp w) < rate (chp w)) →
    syncs n w = (Ok tt, set_ticks (ticks w + n) w).
Proof.
  induction n as [|n IH]; intros w Hnear.
  { simpl. f_equal. destruct w. unfold set_ticks. simpl. f_equal. lia. }
  rewrite syncs_step, sync_closed.
  - rewrite IH.
    + f_equal. unfold set_ticks. simpl. f_equal. lia.
    + intros i Hi. simpl. replace (S (ticks w + i)) with (ticks w + S i)%nat by lia.
      apply Hnear. lia.
  - unfold gate_open. specialize (Hnear 0%nat). rewrite Nat.add_0_r in Hnear. lia.
Qed.

(** X22. A loop of [n] calls of [sync] writes nothing exactly when each of
    its [n] clock readings is less than [rate] after the last save; then
    it changes nothing but the clock. *)
Theorem syncs_throttled n w :
  (writes (syncs n w).2 = writes w
   ↔ ∀ i : nat, (i < n)%nat →
       clock w (ticks w + i)%nat - modified (chp w) < rate (chp w))
  ∧ ((∀ i : nat, (i < n)%nat →
        clock w (ticks w + i)%nat - modified (chp w) < rate (chp w)) →
     syncs n w = (Ok tt, set_ticks (ticks w + n) w)).
Proof.
  split; [| apply syncs_closed]. split; [| by intros ->%syncs_closed].
  revert w. induction n as [|n IH]; intros w Hw i Hi; [lia |].
  rewrite syncs_step in Hw. destruct (decide (gate_open w)) as [Hg | Hg].
  - destruct (sync_open w Hg) as (w1 & Hrun & Hw1 & _). rewrite Hrun in Hw.
    destruct (syncs_writes n w1) as (w' & Hrun' & Hle).
    rewrite Hrun' in Hw. simpl in Hw. lia.
  - rewrite (sync_closed w Hg) in Hw. destruct i as [|i].
    + rewrite Nat.add_0_r. unfold gate_open in Hg. lia.
    + replace (ticks w + S i)%nat with (S (ticks w) + i)%nat by lia.
      apply (IH (set_ticks (S (ticks w)) w) Hw i). lia.
Qed.

Lemma syncs_throttled_witness :
  syncs 5 constructed = (Ok tt, set_ticks (ticks constructed + 5) constructed).
Proof.
  apply (syncs_throttled 5 constructed).
  intros i Hi. vm_compute in Hi.
  do 5 (destruct i as [|i]; [by vm_compute |]). lia.
Defined.
